(** * Gloo allreduce operator (caffe2/contrib/gloo/allreduce_ops.h)

    A shallow embedding of [AllreduceOp]: the parameter snapshot
    [GlooParameters] with its [operator==], the snapshot recomputation
    [update], the one-time [initialize] with its four validation passes and
    the mode switch, and [RunOnDevice] with the drift check and the handling
    of [::gloo::IoException].

    C++ exceptions are the [Throw] results of a state monad: whatever a
    member function wrote before it threw stays written.  Every access to
    an operator input or output, every algorithm construction and every
    [run()] is recorded in a trace of events, so that statements such as
    "run() is not called" or "every access is in bounds" can be made. *)

From Stdlib Require Import ZArith NArith String List Lia.
From stdpp Require Import base option list gmap strings.

Local Open Scope string_scope.
Local Open Scope list_scope.
Local Open Scope stdpp_scope.
Local Open Scope nat_scope.

(** ** Faults and results *)

(** What a member function can throw.  The use of a null pointer has no
    defined behaviour in the source; the model reports it as a fault of its
    own and no statement below depends on what follows it. *)
Inductive Fault : Type :=
| EnforceNotMet (msg : string)   (* a failed CAFFE_ENFORCE / CAFFE_ENFORCE_EQ *)
| OutOfRange (what : string)     (* Input(i) / Output(i) past the blobs supplied *)
| IoException (what : string)    (* ::gloo::IoException *)
| NullDereference.               (* use of a null pointer member *)

Inductive Result (A : Type) : Type :=
| Ok (a : A)
| Throw (f : Fault).
Arguments Ok {A} a.
Arguments Throw {A} f.

(** ** Pointers, element types, tensors, blobs *)

Definition ptr : Type := Z.
Definition nullptr : ptr := 0%Z.

(** Modelled from the spec: [TypeMeta] (caffe2/core/typeid.h) is the element
    type tag of a buffer; two tags are the same type when their ids agree. *)
Module TypeMeta.
Record t : Type := Build { id : N; itemsize : N }.
Definition eqb (a b : t) : bool := (id a =? id b)%N.
(** [Match<T>()], the type [T] given by its id. *)
Definition Match (T : N) (a : t) : bool := (id a =? T)%N.
End TypeMeta.

(** Modelled from the spec: a tensor (caffe2/core/tensor.h) is seen by this
    operator as a buffer address, an element count and an element type.
    [raw_mutable_data] stands for the address that the call yields. *)
Module Tensor.
Record t : Type := Build { raw_data : ptr; size : N; meta : TypeMeta.t }.
Definition raw_mutable_data (x : t) : ptr := raw_data x.
Definition nbytes (x : t) : N := ((size x * TypeMeta.itemsize (meta x)) mod 2 ^ 64)%N.
End Tensor.
Arguments TypeMeta.Build (id itemsize)%_N.
Arguments Tensor.Build raw_data%_Z size%_N meta.

(** Modelled from the spec: a blob (caffe2/core/blob.h) is a slot that is
    empty or holds the communication context or a tensor. *)
Inductive Blob : Type :=
| BlobEmpty
| BlobContext (c : ptr)          (* std::shared_ptr<::gloo::Context> *)
| BlobTensor (x : Tensor.t).

(** ** Algorithm modes *)

(** [enum Mode { RING_FULL, RING_CHUNKED, HALVING_DOUBLING }], the
    enumerators by their values.  A variable of the enum can hold another
    value, which the switch of [initialize] leaves to its defensive fault. *)
Definition Mode : Type := N.
Definition RING_FULL : Mode := 0%N.
Definition RING_CHUNKED : Mode := 1%N.
Definition HALVING_DOUBLING : Mode := 2%N.

(** ** The trace *)

Inductive Event : Type :=
| EvInput (idx : nat)            (* Input(idx) or OperatorBase::Input<T>(idx) *)
| EvOutput (idx : nat)           (* Output(idx) *)
| EvConstruct (mode : Mode)      (* an algorithm object is constructed *)
| EvRun                          (* algorithm_->run() *)
| EvLogError (msg : string).     (* LOG(ERROR) *)

(** ** The monad: state, exceptions that keep the state, and a trace *)

Definition M (S A : Type) : Type := S → Result A * S * list Event.

Global Instance M_ret {S} : MRet (M S) := λ A a s, (Ok a, s, []).
Global Instance M_bind {S} : MBind (M S) := λ A B f m s,
  match m s with
  | (Ok a, s1, ev1) =>
      match f a s1 with
      | (r, s2, ev2) => (r, s2, ev1 ++ ev2)
      end
  | (Throw e, s1, ev1) => (Throw e, s1, ev1)
  end.

Definition throw {S A} (e : Fault) : M S A := λ s, (Throw e, s, []).
Definition gets {S A} (f : S → A) : M S A := λ s, (Ok (f s), s, []).
Definition modify {S} (f : S → S) : M S unit := λ s, (Ok tt, f s, []).
Definition tell {S} (e : Event) : M S unit := λ s, (Ok tt, s, [e]).

(** A member function run on one member object of the state. *)
Definition zoom {S T A} (get : S → T) (set : T → S → S) (m : M T A) : M S A :=
  λ s, match m (get s) with (r, t, ev) => (r, set t s, ev) end.

(** [try { body } catch (::gloo::IoException& ioe) { handler ioe.what() }] *)
Definition try_catch_IoException {S A} (body : M S A) (handler : string → M S A) : M S A :=
  λ s, match body s with
       | (Throw (IoException what), s1, ev1) =>
           match handler what s1 with
           | (r, s2, ev2) => (r, s2, ev1 ++ ev2)
           end
       | other => other
       end.

(** [for (auto i = lo; i < hi; i++) body(i)] *)
Fixpoint for_range {S} (i n : nat) (body : nat → M S unit) : M S unit :=
  match n with
  | O => mret tt
  | Datatypes.S n' => body i ;; for_range (Datatypes.S i) n' body
  end.
Definition for_loop {S} (lo hi : nat) (body : nat → M S unit) : M S unit :=
  for_range lo (hi - lo) body.

(** Modelled from the spec: [CAFFE_ENFORCE] and [CAFFE_ENFORCE_EQ]
    (caffe2/core/logging.h) raise a fatal fault when the condition fails; the
    message kept is the condition, or the text given with it. *)
Definition CAFFE_ENFORCE {S} (cond : bool) (msg : string) : M S unit :=
  if cond then mret tt else throw (EnforceNotMet msg).

(** ** GlooParameters *)

Module GlooParameters.
Record t : Type := Build {
  context : ptr;
  inputs : list ptr;
  outputs : list ptr;
  size : N;
  meta : TypeMeta.t
}.

Definition set_context (v : ptr) (p : t) : t :=
  Build v (inputs p) (outputs p) (size p) (meta p).
Definition set_inputs (v : list ptr) (p : t) : t :=
  Build (context p) v (outputs p) (size p) (meta p).
Definition set_outputs (v : list ptr) (p : t) : t :=
  Build (context p) (inputs p) v (size p) (meta p).
Definition set_size (v : N) (p : t) : t :=
  Build (context p) (inputs p) (outputs p) v (meta p).
Definition set_meta (v : TypeMeta.t) (p : t) : t :=
  Build (context p) (inputs p) (outputs p) (size p) v.

(** [reinterpret_cast<T*>(p)]: the address is kept. *)
Definition reinterpret_cast (p : ptr) : ptr := p.

(** [getInputs<T>()]: every input in turn is cast and pushed back onto the
    result ([reserve] changes the capacity only). *)
Definition getInputs (p : t) : list ptr :=
  foldl (λ result input, result ++ [reinterpret_cast input]) [] (inputs p).

(** [getOutputs<T>()] *)
Definition getOutputs (p : t) : list ptr :=
  foldl (λ result output, result ++ [reinterpret_cast output]) [] (outputs p).

(** [IsType<T>()], the type [T] given by its id. *)
Definition IsType (T : N) (p : t) : bool := TypeMeta.Match T (meta p).

(** Equality of two address vectors, as std::vector's operator==. *)
Fixpoint ptrs_eqb (a b : list ptr) : bool :=
  match a, b with
  | [], [] => true
  | x :: a', y :: b' => (x =? y)%Z && ptrs_eqb a' b'
  | _, _ => false
  end.

(** [operator==]: context, inputs, outputs and size; not meta. *)
Definition eqb (p other : t) : bool :=
  (context p =? context other)%Z && ptrs_eqb (inputs p) (inputs other) &&
  ptrs_eqb (outputs p) (outputs other) && (size p =? size other)%N.

(** A default-constructed instance. *)
Definition empty : t := Build nullptr [] [] 0%N (TypeMeta.Build 0 0).
End GlooParameters.

(** ** One invocation of the operator *)

(** Modelled from the spec: what the framework (caffe2/core/operator.h)
    hands to one call of [RunOnDevice]: the input blobs (section 6: the
    context first, then the tensors to reduce), the output tensors, and what
    the bound algorithm's [run()] will do in this call ([None]: it returns;
    [Some f]: it throws [f]). *)
Record Invocation : Type := {
  inv_inputs : list Blob;
  inv_outputs : list Tensor.t;
  run_outcome : option Fault
}.

Section Accessors.
Variable inv : Invocation.
Context {S : Type}.

Definition InputSize : nat := length (inv_inputs inv).
Definition OutputSize : nat := length (inv_outputs inv).

(** Modelled from the spec: [Input(idx)] is the tensor held by input blob
    [idx]; an index past the blobs supplied, or a blob that holds no tensor,
    is a fault. *)
Definition Input (idx : nat) : M S Tensor.t :=
  tell (EvInput idx) ;;
  match inv_inputs inv !! idx with
  | Some (BlobTensor x) => mret x
  | Some _ => throw (EnforceNotMet "wrong type for the Blob instance")
  | None => throw (OutOfRange "Input")
  end.

(** Modelled from the spec:
    [OperatorBase::Input<std::shared_ptr<::gloo::Context>>(idx)] is the
    context held by input blob [idx], with the same faults. *)
Definition InputContext (idx : nat) : M S ptr :=
  tell (EvInput idx) ;;
  match inv_inputs inv !! idx with
  | Some (BlobContext c) => mret c
  | Some _ => throw (EnforceNotMet "wrong type for the Blob instance")
  | None => throw (OutOfRange "Input")
  end.

(** Modelled from the spec: [Output(idx)] is the tensor of output [idx]; an
    index past the outputs supplied is a fault. *)
Definition Output (idx : nat) : M S Tensor.t :=
  tell (EvOutput idx) ;;
  match inv_outputs inv !! idx with
  | Some x => mret x
  | None => throw (OutOfRange "Output")
  end.
End Accessors.

(** ** update *)

Section Update.
Variable inv : Invocation.
Import GlooParameters.

(** [InputSize() - 1] is reached only after input 0 was read, so the
    subtraction does not go below zero. *)
Definition update : M GlooParameters.t unit :=
  c ← InputContext inv 0 ;
  modify (set_context c) ;;
  modify (λ p, set_inputs (resize (InputSize inv - 1) nullptr (inputs p)) p) ;;
  modify (λ p, set_outputs (resize (OutputSize inv) nullptr (outputs p)) p) ;;
  n ← gets (λ p, length (inputs p)) ;
  for_loop 0 n (λ i,
    x ← Input inv (i + 1) ;
    modify (λ p, set_inputs (<[i := Tensor.raw_data x]> (inputs p)) p) ;;
    y ← Output inv i ;
    modify (λ p, set_outputs (<[i := Tensor.raw_mutable_data y]> (outputs p)) p)) ;;
  y ← Output inv 0 ;
  modify (set_size (Tensor.size y)) ;;
  y ← Output inv 0 ;
  modify (set_meta (Tensor.meta y)).
End Update.

(** ** The algorithm binding *)

(** Modelled from the spec: [::gloo::Algorithm] and the three initializers
    [initializeRingFull], [initializeRingChunked], [initializeHalvingDoubling]
    are declared in this header and defined outside the sources.  The spec
    has them construct one algorithm object for the mode, supplied with the
    context, the input addresses, the output addresses, the element count
    and the element type of the baseline snapshot. *)
Record Algorithm : Type := {
  alg_mode : Mode;
  alg_params : GlooParameters.t
}.

(** ** Operator configuration and workspace *)

Inductive Argument : Type :=
| ArgS (s : string)
| ArgI (i : Z).

Record OperatorDef : Type := { arg : gmap string Argument }.

(** Modelled from the spec: [OperatorBase::GetSingleArgument<T>]
    (caffe2/core/operator.h) yields the option of that name, or the default
    when the option is absent. *)
Definition GetSingleArgument_string (d : OperatorDef) (name default : string) : Result string :=
  match arg d !! name with
  | None => Ok default
  | Some (ArgS s) => Ok s
  | Some _ => Throw (EnforceNotMet "Argument does not have the right field")
  end.

Definition GetSingleArgument_bool (d : OperatorDef) (name : string) (default : bool) : Result bool :=
  match arg d !! name with
  | None => Ok default
  | Some (ArgI i) => Ok (negb (i =? 0)%Z)
  | Some _ => Throw (EnforceNotMet "Argument does not have the right field")
  end.

(** Modelled from the spec: the workspace (caffe2/core/workspace.h) is the
    store of named slots; [CreateBlob] keeps a slot that exists already. *)
Definition CreateBlob (name : string) (ws : gmap string Blob) : gmap string Blob :=
  match ws !! name with
  | Some _ => ws
  | None => <[name := BlobEmpty]> ws
  end.

Definition GetBlob (name : string) (ws : gmap string Blob) : option Blob := ws !! name.

(** ** The operator *)

(** [ws_] holds the workspace the member pointer refers to. *)
Record AllreduceOp : Type := {
  once_ : bool;
  algorithm_ : option Algorithm;
  init_ : GlooParameters.t;
  current_ : GlooParameters.t;
  ws_ : gmap string Blob;
  status_blob_ : string;
  gpu_direct_ : bool
}.

Definition set_once_ (v : bool) (o : AllreduceOp) : AllreduceOp :=
  Build_AllreduceOp v (algorithm_ o) (init_ o) (current_ o) (ws_ o) (status_blob_ o) (gpu_direct_ o).
Definition set_algorithm_ (v : option Algorithm) (o : AllreduceOp) : AllreduceOp :=
  Build_AllreduceOp (once_ o) v (init_ o) (current_ o) (ws_ o) (status_blob_ o) (gpu_direct_ o).
Definition set_init_ (v : GlooParameters.t) (o : AllreduceOp) : AllreduceOp :=
  Build_AllreduceOp (once_ o) (algorithm_ o) v (current_ o) (ws_ o) (status_blob_ o) (gpu_direct_ o).
Definition set_current_ (v : GlooParameters.t) (o : AllreduceOp) : AllreduceOp :=
  Build_AllreduceOp (once_ o) (algorithm_ o) (init_ o) v (ws_ o) (status_blob_ o) (gpu_direct_ o).
Definition set_ws_ (v : gmap string Blob) (o : AllreduceOp) : AllreduceOp :=
  Build_AllreduceOp (once_ o) (algorithm_ o) (init_ o) (current_ o) v (status_blob_ o) (gpu_direct_ o).

(** The constructor [AllreduceOp(operator_def, ws)]. *)
Definition AllreduceOp_new (operator_def : OperatorDef) (ws : gmap string Blob) : Result AllreduceOp :=
  match GetSingleArgument_string operator_def "status_blob" "" with
  | Throw e => Throw e
  | Ok status_blob =>
      match GetSingleArgument_bool operator_def "gpu_direct" false with
      | Throw e => Throw e
      | Ok gpu_direct =>
          Ok {| once_ := false;
                algorithm_ := None;
                init_ := GlooParameters.empty;
                current_ := GlooParameters.empty;
                ws_ := if negb (String.eqb status_blob "") then CreateBlob status_blob ws else ws;
                status_blob_ := status_blob;
                gpu_direct_ := gpu_direct |}
      end
  end.

(** [std::call_once(once_, f)]: [f] runs when the flag is not set; the flag
    is set when [f] returns, and stays unset when [f] throws, so that a later
    call runs [f] again. *)
Definition call_once (f : M AllreduceOp unit) : M AllreduceOp unit :=
  λ s, if once_ s then (Ok tt, s, [])
       else match f s with
            | (Ok _, s1, ev) => (Ok tt, set_once_ true s1, ev)
            | (Throw e, s1, ev) => (Throw e, s1, ev)
            end.

(** Modelled from the spec: the three initializers, defined outside the
    sources, construct the algorithm of their mode on the baseline snapshot
    and store it in [algorithm_]. *)
Definition construct (mode : Mode) : M AllreduceOp unit :=
  tell (EvConstruct mode) ;;
  modify (λ s, set_algorithm_ (Some {| alg_mode := mode; alg_params := init_ s |}) s).

Definition initializeRingFull : M AllreduceOp unit := construct RING_FULL.
Definition initializeRingChunked : M AllreduceOp unit := construct RING_CHUNKED.
Definition initializeHalvingDoubling : M AllreduceOp unit := construct HALVING_DOUBLING.

Section Operator.
(** [signalFailure] (caffe2/contrib/gloo/common.h) is outside the sources:
    what it makes of a status blob and an exception's message is a
    parameter. *)
Variable signalFailure : Blob → string → Blob.
Variable inv : Invocation.
Import GlooParameters.

(** The body of [initialize] below the declaration of the local [mode]. *)
Definition initialize_with (mode : Mode) : M AllreduceOp unit :=
  x ← Input inv 1 ;
  let bytes := Tensor.nbytes x in
  (* Store which inputs/outputs this instance initialized with *)
  zoom init_ set_init_ (update inv) ;;
  (* Verify inputs == ouputs *)
  ni ← gets (λ s, length (inputs (init_ s))) ;
  no ← gets (λ s, length (outputs (init_ s))) ;
  CAFFE_ENFORCE (ni =? no)%nat "init_.inputs.size() == init_.outputs.size()" ;;
  n ← gets (λ s, length (inputs (init_ s))) ;
  for_loop 0 n (λ i,
    a ← gets (λ s, default nullptr (inputs (init_ s) !! i)) ;
    b ← gets (λ s, default nullptr (outputs (init_ s) !! i)) ;
    CAFFE_ENFORCE (a =? b)%Z "init_.inputs[i] == init_.outputs[i]") ;;
  (* Verify tensors all have same size *)
  x ← Input inv 1 ;
  let size := Tensor.size x in
  for_loop 2 (InputSize inv) (λ i,
    xi ← Input inv i ;
    CAFFE_ENFORCE (Tensor.size xi =? size)%N "Input(i).size() == size") ;;
  (* Verify tensors all have same type *)
  x ← Input inv 1 ;
  let meta := Tensor.meta x in
  for_loop 2 (InputSize inv) (λ i,
    xi ← Input inv i ;
    CAFFE_ENFORCE (TypeMeta.eqb (Tensor.meta xi) meta) "Input(i).meta() == meta") ;;
  if (mode =? RING_FULL)%N then initializeRingFull
  else if (mode =? RING_CHUNKED)%N then initializeRingChunked
  else if (mode =? HALVING_DOUBLING)%N then initializeHalvingDoubling
  else CAFFE_ENFORCE false "Unreachable code".

(** [initialize()]: [Mode mode = HALVING_DOUBLING;] and the body. *)
Definition initialize : M AllreduceOp unit := initialize_with HALVING_DOUBLING.

(** [algorithm_->run()] *)
Definition algorithm_run : M AllreduceOp unit :=
  a ← gets algorithm_ ;
  match a with
  | None => throw NullDereference
  | Some _ =>
      tell EvRun ;;
      match run_outcome inv with
      | None => mret tt
      | Some f => throw f
      end
  end.

(** [signalFailure(ws_->GetBlob(status_blob_), ioe)] *)
Definition signal_status_blob (what : string) : M AllreduceOp unit :=
  name ← gets status_blob_ ;
  b ← gets (λ s, GetBlob name (ws_ s)) ;
  match b with
  | None => throw NullDereference
  | Some blob => modify (λ s, set_ws_ (<[name := signalFailure blob what]> (ws_ s)) s)
  end.

(** [RunOnDevice()].  The [return true] that follows the try block is the
    last step of its body here: it is reached exactly when [run()] returns. *)
Definition RunOnDevice : M AllreduceOp bool :=
  call_once initialize ;;
  (* If any parameter has changed in between runs, the initialized
     algorithm is invalid and cannot be used. *)
  zoom current_ set_current_ (update inv) ;;
  cur ← gets current_ ;
  ini ← gets init_ ;
  CAFFE_ENFORCE (eqb cur ini) "Inputs/outputs have changed" ;;
  try_catch_IoException
    (algorithm_run ;; mret true)
    (λ what,
       tell (EvLogError ("Caught gloo IO exception: " +:+ what)) ;;
       status_blob ← gets status_blob_ ;
       if negb (String.eqb status_blob "") then
         signal_status_blob what ;;
         mret false
       else
         throw (IoException what)).
End Operator.

(** ** What the spec says, in its words *)

Definition recognized (mode : Mode) : bool :=
  (mode =? RING_FULL)%N || (mode =? RING_CHUNKED)%N || (mode =? HALVING_DOUBLING)%N.

(** Spec 4.2 step 1 and section 6: the mode is the [algorithm_mode] option,
    one of ring-full, ring-chunked and halving-doubling, and
    halving-doubling when the option is absent. *)
Definition spec_algorithm_mode (d : OperatorDef) : Mode :=
  match arg d !! "algorithm_mode" with
  | Some (ArgS "ring-full") => RING_FULL
  | Some (ArgS "ring-chunked") => RING_CHUNKED
  | _ => HALVING_DOUBLING
  end.

(** Spec 4.2 step 3, the four validations in their order, over the tensor
    inputs [ts] (first of them [x1]) and the outputs [outs]. *)
Definition same_count (ts outs : list Tensor.t) : bool :=
  (length ts =? length outs)%nat.
Definition aliased (ts outs : list Tensor.t) : bool :=
  forallb (λ i, (default nullptr (Tensor.raw_data <$> ts !! i) =?
                 default nullptr (Tensor.raw_data <$> outs !! i))%Z)
          (seq 0 (length ts)).
Definition uniform_size (x1 : Tensor.t) (ts : list Tensor.t) : bool :=
  forallb (λ x, (Tensor.size x =? Tensor.size x1)%N) ts.
Definition uniform_meta (x1 : Tensor.t) (ts : list Tensor.t) : bool :=
  forallb (λ x, TypeMeta.eqb (Tensor.meta x) (Tensor.meta x1)) ts.

Inductive Validation : Type :=
| SameCount      (* as many inputs as outputs *)
| InPlace        (* inputs[i] == outputs[i] at every index *)
| UniformSize    (* every tensor has the element count of the first *)
| UniformType.   (* every tensor has the element type of the first *)

(** The first of the four validations that fails, in the order of the spec. *)
Definition first_violation (x1 : Tensor.t) (xs outs : list Tensor.t) : option Validation :=
  if negb (same_count (x1 :: xs) outs) then Some SameCount
  else if negb (aliased (x1 :: xs) outs) then Some InPlace
  else if negb (uniform_size x1 (x1 :: xs)) then Some UniformSize
  else if negb (uniform_meta x1 (x1 :: xs)) then Some UniformType
  else None.

(** The fault by which the code reports a failed validation.  With fewer
    outputs than tensors the count mismatch shows while the baseline is
    captured, as the access to the missing output. *)
Definition fault_of (fewer_outputs : bool) (v : Validation) : Fault :=
  match v with
  | SameCount =>
      if fewer_outputs then OutOfRange "Output"
      else EnforceNotMet "init_.inputs.size() == init_.outputs.size()"
  | InPlace => EnforceNotMet "init_.inputs[i] == init_.outputs[i]"
  | UniformSize => EnforceNotMet "Input(i).size() == size"
  | UniformType => EnforceNotMet "Input(i).meta() == meta"
  end.

Definition spec_validation (x1 : Tensor.t) (xs outs : list Tensor.t) : option Fault :=
  fault_of (length outs <? length (x1 :: xs)) <$> first_violation x1 xs outs.

(** An invocation as section 6 of the spec has it: the context first, then
    the tensors to reduce, and the output slots. *)
Definition invocation (c : ptr) (ts outs : list Tensor.t) (ro : option Fault) : Invocation :=
  {| inv_inputs := BlobContext c :: (BlobTensor <$> ts);
     inv_outputs := outs;
     run_outcome := ro |}.

Arguments invocation c%_Z ts outs ro.

(** ** Predicates on traces *)

Definition is_access (e : Event) : bool :=
  match e with
  | EvInput _ | EvOutput _ => true
  | _ => false
  end.

Definition in_bounds (inv : Invocation) (e : Event) : bool :=
  match e with
  | EvInput idx => (idx <? InputSize inv)%nat
  | EvOutput idx => (idx <? OutputSize inv)%nat
  | _ => true
  end.

(** The accesses that one successful [update] performs over [n] tensors. *)
Definition update_events (n : nat) : list Event :=
  EvInput 0 :: flat_map (λ i, [EvInput (i + 1); EvOutput i]) (seq 0 n)
    ++ [EvOutput 0; EvOutput 0].

(** ** Reasoning about monadic code *)

Section Triples.
Context {S T : Type}.
Variable g : S → T.              (* the part of the state that is framed *)
Variable P : Event → Prop.       (* what every event of the trace satisfies *)
Variable F : Fault → Prop.       (* what every fault thrown satisfies *)

(** [m] leaves [g] alone, emits [P] events and throws [F] faults only. *)
Definition steady {A} (m : M S A) : Prop :=
  ∀ s, match m s with
       | (r, s', ev) =>
           g s' = g s ∧ Forall P ev ∧ ∀ f, r = Throw f → F f
       end.

(** The same, but promised only for the runs of [m] that throw. *)
Definition steady_on_throw {A} (m : M S A) : Prop :=
  ∀ s f s' ev, m s = (Throw f, s', ev) → g s' = g s ∧ Forall P ev ∧ F f.
End Triples.

(** [Q] holds of the final state and trace of every run that returns. *)
Definition ok_post {S A} (Q : S → list Event → Prop) (m : M S A) : Prop :=
  ∀ s a s' ev, m s = (Ok a, s', ev) → Q s' ev.

(** ** Example data

    Two float tensors reduced in place, and variations of that step. *)

Definition float32 : TypeMeta.t := TypeMeta.Build 1 4.
Definition int32 : TypeMeta.t := TypeMeta.Build 2 4.
Definition tensor_a : Tensor.t := Tensor.Build 4096 4 float32.
Definition tensor_b : Tensor.t := Tensor.Build 8192 4 float32.

(** The step that initializes the operator in the examples. *)
Definition first_step : Invocation :=
  invocation 64 [tensor_a; tensor_b] [tensor_a; tensor_b] None.

(** Both buffers now hold another element type, same addresses and counts. *)
Definition retyped_step : Invocation :=
  let a := Tensor.Build 4096 4 int32 in
  let b := Tensor.Build 8192 4 int32 in
  invocation 64 [a; b] [a; b] None.

(** The second buffer is now elsewhere. *)
Definition moved_step : Invocation :=
  let b := Tensor.Build 16384 4 float32 in
  invocation 64 [tensor_a; b] [tensor_a; b] None.

(** The step of [first_step], with a [run()] that throws. *)
Definition failing_step : Invocation :=
  invocation 64 [tensor_a; tensor_b] [tensor_a; tensor_b]
    (Some (IoException "peer unreachable")).

(** An instance of [signalFailure] for the examples: the status blob
    becomes a one-element tensor. *)
Definition status_written (blob : Blob) (what : string) : Blob :=
  BlobTensor (Tensor.Build 12288 1 int32).

Definition plain_def : OperatorDef := {| arg := ∅ |}.
Definition ring_full_def : OperatorDef :=
  {| arg := {[ "algorithm_mode" := ArgS "ring-full" ]} |}.
Definition status_def : OperatorDef :=
  {| arg := {[ "status_blob" := ArgS "allreduce_status" ]} |}.

(** The operators that the constructor makes of [plain_def] (and of
    [ring_full_def]) and of [status_def] in an empty workspace. *)
Definition plain_op : AllreduceOp :=
  {| once_ := false; algorithm_ := None;
     init_ := GlooParameters.empty; current_ := GlooParameters.empty;
     ws_ := ∅; status_blob_ := ""; gpu_direct_ := false |}.
Definition status_op : AllreduceOp :=
  {| once_ := false; algorithm_ := None;
     init_ := GlooParameters.empty; current_ := GlooParameters.empty;
     ws_ := {[ "allreduce_status" := BlobEmpty ]};
     status_blob_ := "allreduce_status"; gpu_direct_ := false |}.

(** The operator after the step [inv]. *)
Definition after (inv : Invocation) (s : AllreduceOp) : AllreduceOp :=
  (RunOnDevice status_written inv s).1.2.

(** ** The steps of a computation *)

(** The engine invokes the operator once per step, whatever the step before
    returned: the results of the steps, the final operator and the whole
    trace. *)
Fixpoint run_steps (sf : Blob → string → Blob) (invs : list Invocation) (s : AllreduceOp)
    : list (Result bool) * AllreduceOp * list Event :=
  match invs with
  | [] => ([], s, [])
  | inv :: rest =>
      match RunOnDevice sf inv s with
      | (r, s1, ev1) =>
          match run_steps sf rest s1 with
          | (rs, s2, ev2) => (r :: rs, s2, ev1 ++ ev2)
          end
      end
  end.

Definition is_construct (e : Event) : bool :=
  match e with EvConstruct _ => true | _ => false end.
Definition is_run (e : Event) : bool :=
  match e with EvRun => true | _ => false end.
Definition is_log (e : Event) : bool :=
  match e with EvLogError _ => true | _ => false end.

(** How many events of the trace [ev] are of the kind [f]. *)
Definition count_events (f : Event → bool) (ev : list Event) : nat :=
  length (List.filter f ev).

(** The snapshot of an invocation with context [c], tensors [ts], outputs
    [outs] and first output [o]. *)
Definition snapshot (c : ptr) (ts outs : list Tensor.t) (o : Tensor.t) : GlooParameters.t :=
  GlooParameters.Build c (Tensor.raw_data <$> ts) (Tensor.raw_data <$> outs)
    (Tensor.size o) (Tensor.meta o).
Arguments snapshot c%_Z ts outs o.

(** ** Predicates on runs *)

(** Neither a [run()] nor a log line. *)
Definition silent (e : Event) : Prop := is_run e = false ∧ is_log e = false.

(** What a run writes into the workspace and the configuration. *)
Definition writes_status_only (sf : Blob → string → Blob) (inv : Invocation)
    (s : AllreduceOp) (run : Result bool * AllreduceOp * list Event) : Prop :=
  match run with
  | (r, s', ev) =>
      status_blob_ s' = status_blob_ s ∧ gpu_direct_ s' = gpu_direct_ s ∧
      (∀ name, name ≠ status_blob_ s → ws_ s' !! name = ws_ s !! name) ∧
      (ws_ s' ≠ ws_ s →
       r = Ok false ∧ status_blob_ s ≠ "" ∧
       ∃ blob what, ws_ s !! status_blob_ s = Some blob ∧
                    run_outcome inv = Some (IoException what) ∧
                    ws_ s' = <[status_blob_ s := sf blob what]> (ws_ s))
  end.

(** A fault [f] of [run()] that goes through [RunOnDevice]: nothing written
    to the workspace, nothing logged, and [f] thrown once [run()] was
    reached. *)
Definition passes_through (f : Fault) (s : AllreduceOp)
    (run : Result bool * AllreduceOp * list Event) : Prop :=
  match run with
  | (r, s', ev) =>
      ws_ s' = ws_ s ∧ count_events is_log ev = 0 ∧ (EvRun ∈ ev → r = Throw f)
  end.

(** How a run that reached [run()] ends, by what [run()] did. *)
Definition run_outcome_handled (sf : Blob → string → Blob) (inv : Invocation)
    (s : AllreduceOp) (run : Result bool * AllreduceOp * list Event) : Prop :=
  match run with
  | (r, s', ev) =>
      EvRun ∈ ev →
      (run_outcome inv = None → r = Ok true ∧ ws_ s' = ws_ s) ∧
      (∀ what, run_outcome inv = Some (IoException what) →
         (status_blob_ s ≠ "" →
          ∃ blob, ws_ s !! status_blob_ s = Some blob ∧ r = Ok false ∧
                  ws_ s' = <[status_blob_ s := sf blob what]> (ws_ s)) ∧
         (status_blob_ s = "" → r = Throw (IoException what) ∧ ws_ s' = ws_ s))
  end.

(** A fault that is not the use of a null pointer. *)
Definition not_null (f : Fault) : Prop := f ≠ NullDereference.

(** ** Devices of the proofs *)

(** One round of the copy loop of [update]. *)
Definition copy_round (inv : Invocation) (i : nat) : M GlooParameters.t unit :=
  x ← Input inv (i + 1) ;
  modify (λ p, GlooParameters.set_inputs
                 (<[i := Tensor.raw_data x]> (GlooParameters.inputs p)) p) ;;
  y ← Output inv i ;
  modify (λ p, GlooParameters.set_outputs
                 (<[i := Tensor.raw_mutable_data y]> (GlooParameters.outputs p)) p).

(** What the copy loop of [update] has established before round [j], on the
    invocation of context [c], tensors [ts] and outputs [outs]. *)
Definition copied (c : ptr) (ts outs : list Tensor.t) (j : nat) (p : GlooParameters.t) : Prop :=
  GlooParameters.context p = c ∧
  length (GlooParameters.inputs p) = length ts ∧
  length (GlooParameters.outputs p) = length outs ∧
  take j (GlooParameters.inputs p) = Tensor.raw_data <$> take j ts ∧
  take j (GlooParameters.outputs p) = Tensor.raw_data <$> take j outs.

(** Every event is an access to an input or an output. *)
Definition accesses_only (e : Event) : Prop := is_access e = true.

(** The defensive fault of the mode switch is thrown for no recognized mode. *)
Definition unreachable_only_if_unrecognized (mode : Mode) (f : Fault) : Prop :=
  f = EnforceNotMet "Unreachable code" → recognized mode = false.

(** The algorithm of [mode] has been constructed on the baseline. *)
Definition bound_to (mode : Mode) (s : AllreduceOp) (ev : list Event) : Prop :=
  recognized mode = true ∧
  algorithm_ s = Some {| alg_mode := mode; alg_params := init_ s |} ∧
  EvConstruct mode ∈ ev.

(** What holds of the operator between invocations: once the flag is set
    there is an algorithm, and a status blob that is named exists. *)
Definition consistent (s : AllreduceOp) : Prop :=
  (once_ s = true → is_Some (algorithm_ s)) ∧
  (status_blob_ s ≠ "" → is_Some (ws_ s !! status_blob_ s)).

(** * Proofs *)

(** ** The monad *)

Lemma bind_run {S A B} (m : M S A) (f : A → M S B) (s : S) :
  (m ≫= f) s =
  match m s with
  | (Ok a, s1, ev1) => match f a s1 with (r, s2, ev2) => (r, s2, ev1 ++ ev2) end
  | (Throw e, s1, ev1) => (Throw e, s1, ev1)
  end.
Proof. reflexivity. Qed.

Lemma bind_throw {S A B} (m : M S A) (f : A → M S B) s e s1 ev1 :
  m s = (Throw e, s1, ev1) → (m ≫= f) s = (Throw e, s1, ev1).
Proof. intros H. rewrite bind_run, H. reflexivity. Qed.

Lemma for_range_S {S} i n (body : nat → M S unit) :
  for_range i (Datatypes.S n) body = (body i ;; for_range (Datatypes.S i) n body).
Proof. reflexivity. Qed.

Section TripleRules.
Context {S T : Type}.
Variable g : S → T.
Variable P : Event → Prop.
Variable F : Fault → Prop.

Lemma steady_ret {A} (a : A) : steady g P F (mret a).
Proof. intros s. cbn. repeat split; [constructor | discriminate]. Qed.

Lemma steady_throw {A} (e : Fault) : F e → steady g P F (throw (A := A) e).
Proof. intros He s. cbn. repeat split; [constructor | congruence]. Qed.

Lemma steady_gets {A} (h : S → A) : steady g P F (gets h).
Proof. intros s. cbn. repeat split; [constructor | discriminate]. Qed.

Lemma steady_modify (h : S → S) : (∀ s, g (h s) = g s) → steady g P F (modify h).
Proof. intros Hh s. cbn. repeat split; [apply Hh | constructor | discriminate]. Qed.

Lemma steady_tell (e : Event) : P e → steady g P F (tell e).
Proof. intros He s. cbn. repeat split; [by repeat constructor | discriminate]. Qed.

Lemma steady_bind {A B} (m : M S A) (f : A → M S B) :
  steady g P F m → (∀ a, steady g P F (f a)) → steady g P F (m ≫= f).
Proof.
  intros Hm Hf s. rewrite bind_run. specialize (Hm s).
  destruct (m s) as [[[a|e] s1] ev1].
  2: { destruct Hm as (Hg1 & Hev1 & Hr). repeat split; [done..|].
       intros f0 [= <-]. by apply Hr. }
  destruct Hm as (Hg1 & Hev1 & _). specialize (Hf a s1).
  destruct (f a s1) as [[r s2] ev2]. destruct Hf as (Hg2 & Hev2 & Hr).
  repeat split; [congruence | by apply Forall_app | exact Hr].
Qed.

Lemma steady_enforce (cond : bool) (msg : string) :
  (cond = false → F (EnforceNotMet msg)) → steady g P F (CAFFE_ENFORCE cond msg).
Proof.
  intros Hc. unfold CAFFE_ENFORCE. destruct cond.
  - apply steady_ret.
  - apply steady_throw. by apply Hc.
Qed.

Lemma steady_for_range (body : nat → M S unit) :
  ∀ n i, (∀ j, i ≤ j < i + n → steady g P F (body j)) →
         steady g P F (for_range i n body).
Proof.
  induction n as [|n IH]; intros i Hb.
  - apply steady_ret.
  - rewrite for_range_S. apply steady_bind.
    + apply Hb. lia.
    + intros _. apply IH. intros j Hj. apply Hb. lia.
Qed.

Lemma steady_for_loop (body : nat → M S unit) lo hi :
  (∀ j, lo ≤ j < hi → steady g P F (body j)) → steady g P F (for_loop lo hi body).
Proof. intros Hb. apply steady_for_range. intros j Hj. apply Hb. lia. Qed.

Lemma steady_zoom {U A} (get : S → U) (set : U → S → S) (m : M U A) :
  steady (λ _, tt) P F m → (∀ u s, g (set u s) = g s) →
  steady g P F (zoom get set m).
Proof.
  intros Hm Hset s. unfold zoom. specialize (Hm (get s)).
  destruct (m (get s)) as [[r u] ev]. destruct Hm as (_ & Hev & Hr).
  repeat split; [apply Hset | exact Hev | exact Hr].
Qed.

Lemma steady_throws {A} (m : M S A) : steady g P F m → steady_on_throw g P F m.
Proof.
  intros Hm s f s' ev Hrun. specialize (Hm s). rewrite Hrun in Hm.
  destruct Hm as (Hg & Hev & Hr). eauto.
Qed.

Lemma steady_on_throw_bind {A B} (m : M S A) (f : A → M S B) :
  steady g P F m → (∀ a, steady_on_throw g P F (f a)) →
  steady_on_throw g P F (m ≫= f).
Proof.
  intros Hm Hf s e s' ev. rewrite bind_run. specialize (Hm s).
  destruct (m s) as [[[a|e1] s1] ev1].
  - destruct Hm as (Hg1 & Hev1 & _).
    destruct (f a s1) as [[r s2] ev2] eqn:Hrun. intros [= -> -> <-].
    destruct (Hf a s1 e s' ev2 Hrun) as (Hg2 & Hev2 & He).
    repeat split; [congruence | by apply Forall_app | exact He].
  - intros [= -> -> ->]. destruct Hm as (Hg1 & Hev1 & Hr). eauto.
Qed.

Lemma steady_Input (inv : Invocation) idx :
  P (EvInput idx) → F (EnforceNotMet "wrong type for the Blob instance") →
  F (OutOfRange "Input") → steady g P F (Input inv idx).
Proof.
  intros HP H1 H2. unfold Input. apply steady_bind; [by apply steady_tell|].
  intros _. destruct (inv_inputs inv !! idx) as [[| |]|];
    (apply steady_ret || by apply steady_throw).
Qed.

Lemma steady_InputContext (inv : Invocation) idx :
  P (EvInput idx) → F (EnforceNotMet "wrong type for the Blob instance") →
  F (OutOfRange "Input") → steady g P F (InputContext inv idx).
Proof.
  intros HP H1 H2. unfold InputContext. apply steady_bind; [by apply steady_tell|].
  intros _. destruct (inv_inputs inv !! idx) as [[| |]|];
    (apply steady_ret || by apply steady_throw).
Qed.

Lemma steady_Output (inv : Invocation) idx :
  P (EvOutput idx) → F (OutOfRange "Output") → steady g P F (Output inv idx).
Proof.
  intros HP H1. unfold Output. apply steady_bind; [by apply steady_tell|].
  intros _. destruct (inv_outputs inv !! idx);
    (apply steady_ret || by apply steady_throw).
Qed.
End TripleRules.

Lemma ok_post_bind {S A B} (Q : S → list Event → Prop) (m : M S A) (f : A → M S B) :
  (∀ s ev1 ev2, Q s ev2 → Q s (ev1 ++ ev2)) →
  (∀ a, ok_post Q (f a)) → ok_post Q (m ≫= f).
Proof.
  intros Hmono Hf s b s' ev. rewrite bind_run.
  destruct (m s) as [[[a|e] s1] ev1]; [|discriminate].
  destruct (f a s1) as [[r s2] ev2] eqn:Hrun. intros [= -> -> <-].
  apply Hmono. eapply Hf. exact Hrun.
Qed.

Ltac steady_step :=
  first
    [ apply steady_Input
    | apply steady_InputContext
    | apply steady_Output
    | apply steady_for_loop; intros ? ?
    | apply steady_enforce; intros _
    | apply steady_ret
    | apply steady_gets
    | apply steady_bind; [|intros ?]
    | apply steady_modify; intros ?
    | apply steady_tell
    | apply steady_throw ].

(** ** update and initialize on any invocation *)

Lemma update_steady (inv : Invocation) (P : Event → Prop) (F : Fault → Prop) :
  (∀ i, P (EvInput i)) → (∀ i, P (EvOutput i)) →
  F (EnforceNotMet "wrong type for the Blob instance") →
  F (OutOfRange "Input") → F (OutOfRange "Output") →
  steady (λ _ : GlooParameters.t, tt) P F (update inv).
Proof.
  intros HP1 HP2 H1 H2 H3. unfold update. repeat steady_step; done.
Qed.

Lemma construct_throws mode (P : Event → Prop) (F : Fault → Prop) :
  steady_on_throw algorithm_ P F (construct mode).
Proof. intros s f s' ev. cbn. discriminate. Qed.

Lemma initialize_with_throws (inv : Invocation) (mode : Mode) :
  steady_on_throw algorithm_ accesses_only (unreachable_only_if_unrecognized mode)
    (initialize_with inv mode).
Proof.
  unfold initialize_with.
  repeat (apply steady_on_throw_bind; [repeat steady_step; try done|intros ?]).
  all: try (apply steady_zoom; [by apply update_steady | done]).
  unfold initializeRingFull, initializeRingChunked, initializeHalvingDoubling.
  destruct (mode =? RING_FULL)%N eqn:E1; [apply construct_throws|].
  destruct (mode =? RING_CHUNKED)%N eqn:E2; [apply construct_throws|].
  destruct (mode =? HALVING_DOUBLING)%N eqn:E3; [apply construct_throws|].
  apply steady_throws, steady_throw. intros _. unfold recognized.
  by rewrite E1, E2, E3.
Qed.

Lemma construct_returns mode :
  recognized mode = true → ok_post (bound_to mode) (construct mode).
Proof.
  intros Hm s a s' ev. cbn. intros [= <- <-].
  repeat split; [done | set_solver].
Qed.

Lemma initialize_with_returns (inv : Invocation) (mode : Mode) :
  ok_post (bound_to mode) (initialize_with inv mode).
Proof.
  assert (Hmono : ∀ (s : AllreduceOp) ev1 ev2,
             bound_to mode s ev2 → bound_to mode s (ev1 ++ ev2)).
  { intros s ev1 ev2 (H1 & H2 & H3). repeat split; [done..|set_solver]. }
  unfold initialize_with.
  repeat (apply ok_post_bind; [exact Hmono|intros ?]).
  unfold initializeRingFull, initializeRingChunked, initializeHalvingDoubling.
  destruct (mode =? RING_FULL)%N eqn:E1.
  { apply N.eqb_eq in E1. subst mode. by apply construct_returns. }
  destruct (mode =? RING_CHUNKED)%N eqn:E2.
  { apply N.eqb_eq in E2. subst mode. by apply construct_returns. }
  destruct (mode =? HALVING_DOUBLING)%N eqn:E3.
  { apply N.eqb_eq in E3. subst mode. by apply construct_returns. }
  intros ? ? ? ?. cbn. discriminate.
Qed.

(** ** Runs on a well-formed invocation *)

Lemma bind_runs {S A B} (m : M S A) (f : A → M S B) s a s1 ev1 r s2 ev2 :
  m s = (Ok a, s1, ev1) → f a s1 = (r, s2, ev2) →
  (m ≫= f) s = (r, s2, ev1 ++ ev2).
Proof. intros H1 H2. rewrite bind_run, H1, H2. reflexivity. Qed.

Lemma modify_run {S} (h : S → S) s : modify h s = (Ok tt, h s, []).
Proof. reflexivity. Qed.

Lemma gets_run {S A} (h : S → A) s : gets h s = (Ok (h s), s, []).
Proof. reflexivity. Qed.

Lemma ret_run {S A} (a : A) (s : S) : (mret a : M S A) s = (Ok a, s, []).
Proof. reflexivity. Qed.

Lemma throw_run {S A} (e : Fault) (s : S) : throw (A := A) e s = (Throw e, s, []).
Proof. reflexivity. Qed.

Lemma tell_run {S} (e : Event) (s : S) : tell e s = (Ok tt, s, [e]).
Proof. reflexivity. Qed.

(** Runs the binds and the primitive actions at the head of a goal. *)
Ltac run :=
  repeat first
    [ rewrite bind_run | rewrite modify_run | rewrite gets_run | rewrite ret_run
    | rewrite throw_run | rewrite tell_run
    | progress cbv beta iota ].

Lemma Input_run {S} (inv : Invocation) idx x (s : S) :
  inv_inputs inv !! idx = Some (BlobTensor x) →
  Input inv idx s = (Ok x, s, [EvInput idx]).
Proof. intros H. unfold Input. rewrite bind_run. cbn. rewrite H. reflexivity. Qed.

Lemma InputContext_run {S} (inv : Invocation) idx c (s : S) :
  inv_inputs inv !! idx = Some (BlobContext c) →
  InputContext inv idx s = (Ok c, s, [EvInput idx]).
Proof. intros H. unfold InputContext. rewrite bind_run. cbn. rewrite H. reflexivity. Qed.

Lemma Output_run {S} (inv : Invocation) idx x (s : S) :
  inv_outputs inv !! idx = Some x →
  Output inv idx s = (Ok x, s, [EvOutput idx]).
Proof. intros H. unfold Output. rewrite bind_run. cbn. rewrite H. reflexivity. Qed.

Lemma Output_fails {S} (inv : Invocation) idx (s : S) :
  inv_outputs inv !! idx = None →
  Output inv idx s = (Throw (OutOfRange "Output"), s, [EvOutput idx]).
Proof. intros H. unfold Output. rewrite bind_run. cbn. rewrite H. reflexivity. Qed.

Lemma invocation_tensor c ts outs ro i :
  inv_inputs (invocation c ts outs ro) !! (Datatypes.S i) = BlobTensor <$> ts !! i.
Proof. change ((BlobTensor <$> ts) !! i = BlobTensor <$> ts !! i). apply list_lookup_fmap. Qed.

Lemma InputSize_invocation c ts outs ro :
  InputSize (invocation c ts outs ro) = Datatypes.S (length ts).
Proof. unfold InputSize, invocation. cbn. by rewrite length_fmap. Qed.

Lemma OutputSize_invocation c ts outs ro :
  OutputSize (invocation c ts outs ro) = length outs.
Proof. reflexivity. Qed.

(** A loop whose every round returns and keeps an invariant. *)
Lemma for_range_invariant {S} (I : nat → S → Prop) (body : nat → M S unit)
    (evs : nat → list Event) :
  ∀ n i s,
    (∀ j t, i ≤ j < i + n → I j t →
            ∃ t', body j t = (Ok tt, t', evs j) ∧ I (Datatypes.S j) t') →
    I i s →
    ∃ s', for_range i n body s = (Ok tt, s', flat_map evs (seq i n)) ∧ I (i + n) s'.
Proof.
  induction n as [|n IH]; intros i s Hbody Hi.
  - exists s. rewrite Nat.add_0_r. done.
  - destruct (Hbody i s ltac:(lia) Hi) as (s1 & Hrun & Hi1).
    destruct (IH (Datatypes.S i) s1) as (s2 & Hrest & Hi2).
    { intros j t Hj. apply Hbody. lia. }
    { exact Hi1. }
    exists s2. split.
    + rewrite for_range_S. erewrite bind_runs; [|exact Hrun|exact Hrest]. reflexivity.
    + by replace (i + Datatypes.S n) with (Datatypes.S i + n) by lia.
Qed.

(** A loop that returns up to round [k] and throws in round [k]. *)
Lemma for_range_throws {S} (I : nat → S → Prop) (body : nat → M S unit) (e : Fault) k :
  ∀ n i s,
    (∀ j t, i ≤ j < k → I j t → ∃ t' ev, body j t = (Ok tt, t', ev) ∧ I (Datatypes.S j) t') →
    (∀ t, I k t → ∃ t' ev, body k t = (Throw e, t', ev)) →
    i ≤ k < i + n → I i s →
    ∃ s' ev, for_range i n body s = (Throw e, s', ev).
Proof.
  induction n as [|n IH]; intros i s Hbody Hk Hik Hi; [lia|].
  rewrite for_range_S. destruct (decide (i = k)) as [->|Hne].
  - destruct (Hk s Hi) as (t' & ev & Hrun). exists t', ev.
    by erewrite bind_throw.
  - destruct (Hbody i s ltac:(lia) Hi) as (s1 & ev1 & Hrun & Hi1).
    destruct (IH (Datatypes.S i) s1) as (s2 & ev2 & Hrest); [|done|lia|done|].
    { intros j t Hj. apply Hbody. lia. }
    exists s2, (ev1 ++ ev2). by erewrite bind_runs.
Qed.

(** A loop of checks that leave the state alone. *)
Lemma for_range_checks {S} (body : nat → M S unit) (cond : nat → bool) (e : Fault) (s : S) :
  ∀ n i,
    (∀ j, i ≤ j < i + n →
          ∃ ev, body j s = (if cond j then Ok tt else Throw e, s, ev)) →
    ∃ ev, for_range i n body s =
          (if forallb cond (seq i n) then Ok tt else Throw e, s, ev).
Proof.
  induction n as [|n IH]; intros i Hbody.
  - by exists [].
  - destruct (Hbody i ltac:(lia)) as (ev1 & Hrun).
    rewrite for_range_S. cbn [seq forallb]. destruct (cond i).
    + destruct (IH (Datatypes.S i)) as (ev2 & Hrest).
      { intros j Hj. apply Hbody. lia. }
      exists (ev1 ++ ev2). by erewrite bind_runs.
    + exists ev1. by erewrite bind_throw.
Qed.

Section UpdateRuns.
Variables (c : ptr) (ts outs : list Tensor.t) (ro : option Fault).
Local Abbreviation inv := (invocation c ts outs ro).
Local Abbreviation copied := (copied c ts outs).
Local Abbreviation copy_round := (copy_round inv).
Import GlooParameters.

Lemma take_insert_S {A} (l : list A) j v :
  j < length l → take (Datatypes.S j) (<[j := v]> l) = take j l ++ [v].
Proof.
  intros Hj. erewrite take_S_r; [|by apply list_lookup_insert_eq].
  by rewrite take_insert_ge.
Qed.

Lemma copy_round_run j p :
  j < length ts → j < length outs → copied j p →
  ∃ p', copy_round j p = (Ok tt, p', [EvInput (j + 1); EvOutput j]) ∧
        copied (Datatypes.S j) p'.
Proof.
  intros Hj1 Hj2 (Hc & Hli & Hlo & Hti & Hto).
  destruct (lookup_lt_is_Some_2 ts j Hj1) as [x Hx].
  destruct (lookup_lt_is_Some_2 outs j Hj2) as [y Hy].
  eexists. split.
  - unfold copy_round. rewrite Nat.add_1_r, bind_run.
    erewrite Input_run by (rewrite invocation_tensor, Hx; reflexivity).
    run. erewrite Output_run by done. run. reflexivity.
  - unfold copied. cbn. rewrite !length_insert.
    repeat split; [done..| |].
    + rewrite take_insert_S by lia. erewrite (take_S_r ts) by done.
      by rewrite fmap_app, Hti.
    + rewrite take_insert_S by lia. erewrite (take_S_r outs) by done.
      by rewrite fmap_app, Hto.
Qed.

Lemma copy_round_throws j p :
  j < length ts → length outs ≤ j →
  ∃ p' ev, copy_round j p = (Throw (OutOfRange "Output"), p', ev).
Proof.
  intros Hj1 Hj2.
  destruct (lookup_lt_is_Some_2 ts j Hj1) as [x Hx].
  eexists _, _. unfold copy_round. rewrite Nat.add_1_r, bind_run.
  erewrite Input_run by (rewrite invocation_tensor, Hx; reflexivity).
  run. rewrite Output_fails by (by apply lookup_ge_None_2). run. reflexivity.
Qed.

(** Runs [update] up to its copy loop, and names what the loop starts from. *)
Ltac to_copy_loop Hn :=
  unfold update; rewrite bind_run; erewrite InputContext_run by reflexivity; run;
  unfold for_loop;
  match goal with
  | |- context [for_range 0 (?n - 0) _ _] =>
      assert (Hn : n - 0 = length ts)
        by (cbn; rewrite length_resize, length_fmap; lia);
      rewrite Hn
  end.

(** [update] returns when no output is missing, with the snapshot of the
    invocation. *)
Lemma update_run p o :
  length ts ≤ length outs → outs !! 0 = Some o →
  ∃ p', update inv p = (Ok tt, p', update_events (length ts)) ∧
        context p' = c ∧
        inputs p' = Tensor.raw_data <$> ts ∧
        length (outputs p') = length outs ∧
        take (length ts) (outputs p') = Tensor.raw_data <$> take (length ts) outs ∧
        size p' = Tensor.size o ∧ meta p' = Tensor.meta o.
Proof.
  intros Hle Ho. to_copy_loop Hn.
  match goal with
  | |- context [for_range 0 _ ?b ?s] =>
      destruct (for_range_invariant copied b (λ i, [EvInput (i + 1); EvOutput i])
                  (length ts) 0 s) as (p1 & Hloop & Hp1)
  end.
  { intros j t Hj Ht. apply copy_round_run; [lia..|done]. }
  { unfold copied. cbn. rewrite !length_resize, length_fmap. repeat split; lia. }
  change (copied (length ts) p1) in Hp1.
  destruct Hp1 as (Hc & Hli & Hlo & Hti & Hto).
  rewrite Hloop. run. erewrite Output_run by done. run.
  erewrite Output_run by done. run.
  eexists. split; [reflexivity|]. cbn. repeat split; try done.
  rewrite <- (take_ge (inputs p1) (length ts)) by lia.
  rewrite Hti. by rewrite take_ge.
Qed.

(** [update] throws when an output is missing. *)
Lemma update_throws p :
  length outs < length ts →
  ∃ p' ev, update inv p = (Throw (OutOfRange "Output"), p', ev).
Proof.
  intros Hlt. to_copy_loop Hn.
  match goal with
  | |- context [for_range 0 _ ?b ?s] =>
      destruct (for_range_throws copied b (OutOfRange "Output") (length outs)
                  (length ts) 0 s) as (p1 & ev & Hloop)
  end.
  { intros j t Hj Ht. destruct (copy_round_run j t) as (t' & Hrun & Ht'); [lia..|done|].
    eauto. }
  { intros t _. apply copy_round_throws; lia. }
  { lia. }
  { unfold copied. cbn. rewrite !length_resize, length_fmap. repeat split; lia. }
  rewrite Hloop. eauto.
Qed.
End UpdateRuns.

(** ** The validation loops of initialize *)

Lemma forallb_seq_ext (f h : nat → bool) :
  ∀ n k, (∀ j, k ≤ j < k + n → f j = h j) → forallb f (seq k n) = forallb h (seq k n).
Proof.
  induction n as [|n IH]; intros k Hfh; [done|].
  cbn [seq forallb]. rewrite (Hfh k) by lia. f_equal.
  apply IH. intros j Hj. apply Hfh. lia.
Qed.

Lemma forallb_seq_lookup {A} (f : A → bool) (l : list A) :
  ∀ k, forallb (λ j, match l !! (j - k) with Some x => f x | None => true end)
               (seq k (length l)) = forallb f l.
Proof.
  induction l as [|x l IH]; intros k; [done|].
  cbn [length seq forallb]. rewrite Nat.sub_diag. cbn [lookup list_lookup]. f_equal.
  rewrite <- (IH (Datatypes.S k)). apply forallb_seq_ext. intros j Hj.
  replace (j - k) with (Datatypes.S (j - Datatypes.S k)) by lia. done.
Qed.

Lemma enforce_run {S} (cond : bool) msg (s : S) :
  CAFFE_ENFORCE cond msg s = (if cond then Ok tt else Throw (EnforceNotMet msg), s, []).
Proof. by destruct cond. Qed.

(** The loop over [init_.inputs[i] == init_.outputs[i]]. *)
Lemma aliasing_loop_run (s : AllreduceOp) (n : nat) :
  ∃ ev,
    for_loop 0 n (λ i,
      a ← gets (λ s, default nullptr (GlooParameters.inputs (init_ s) !! i)) ;
      b ← gets (λ s, default nullptr (GlooParameters.outputs (init_ s) !! i)) ;
      CAFFE_ENFORCE (a =? b)%Z "init_.inputs[i] == init_.outputs[i]") s =
    (if forallb (λ i, (default nullptr (GlooParameters.inputs (init_ s) !! i) =?
                       default nullptr (GlooParameters.outputs (init_ s) !! i))%Z)
                (seq 0 n)
     then Ok tt else Throw (EnforceNotMet "init_.inputs[i] == init_.outputs[i]"),
     s, ev) ∧ Forall accesses_only ev.
Proof.
  unfold for_loop. rewrite Nat.sub_0_r.
  match goal with
  | |- ∃ ev, for_range 0 n ?b s = (if forallb ?c _ then _ else Throw ?e, _, _) ∧ _ =>
      destruct (for_range_checks b c e s n 0) as (ev & Hrun)
  end.
  { intros j _. eexists. run. rewrite enforce_run.
    match goal with |- context [if ?c then _ else _] => destruct c end; reflexivity. }
  exists ev. split; [done|].
  match goal with
  | _ : for_range 0 n ?b s = _ |- _ =>
      assert (Hst : steady (λ _ : AllreduceOp, tt) accesses_only (λ _, True)
                      (for_range 0 n b))
        by (apply steady_for_range; intros; repeat steady_step; done)
  end.
  specialize (Hst s). rewrite Hrun in Hst. tauto.
Qed.

(** A loop [for (auto i = 2; i < InputSize(); i++) CAFFE_ENFORCE(test(Input(i)))]. *)
Lemma inputs_loop_run (c : ptr) (x1 : Tensor.t) (xs outs : list Tensor.t) ro
    (test : Tensor.t → bool) (msg : string) (s : AllreduceOp) :
  let inv := invocation c (x1 :: xs) outs ro in
  ∃ ev,
    for_loop 2 (InputSize inv) (λ i, xi ← Input inv i ; CAFFE_ENFORCE (test xi) msg) s =
    (if forallb test xs then Ok tt else Throw (EnforceNotMet msg), s, ev) ∧
    Forall (λ e, in_bounds inv e = true ∧ accesses_only e) ev.
Proof.
  intros inv. unfold for_loop.
  replace (InputSize inv - 2) with (length xs)
    by (subst inv; rewrite InputSize_invocation; cbn [length]; lia).
  rewrite <- (forallb_seq_lookup test xs 2).
  match goal with
  | |- ∃ ev, for_range 2 _ ?b s = (if forallb ?c _ then _ else Throw ?e, _, _) ∧ _ =>
      destruct (for_range_checks b c e s (length xs) 2) as (ev & Hrun)
  end.
  { intros j Hj. destruct (lookup_lt_is_Some_2 xs (j - 2)) as [x Hx]; [lia|].
    eexists. rewrite bind_run. erewrite Input_run.
    2: { replace j with (Datatypes.S (Datatypes.S (j - 2))) at 1 by lia.
         subst inv. rewrite invocation_tensor.
         change ((x1 :: xs) !! Datatypes.S (j - 2)) with (xs !! (j - 2)). by rewrite Hx. }
    run. rewrite enforce_run, Hx. destruct (test x); reflexivity. }
  exists ev. split; [done|].
  match goal with
  | _ : for_range 2 _ ?b s = _ |- _ =>
      assert (Hst : steady (λ _ : AllreduceOp, tt)
                      (λ e, in_bounds inv e = true ∧ accesses_only e) (λ _, True)
                      (for_range 2 (length xs) b))
  end.
  { apply steady_for_range. intros j Hj. repeat steady_step; try done.
    split; [|done]. change ((j <? InputSize inv) = true). apply Nat.ltb_lt.
    subst inv. rewrite InputSize_invocation. cbn [length]. lia. }
  specialize (Hst s). rewrite Hrun in Hst. tauto.
Qed.

(** ** initialize on a well-formed invocation *)

Lemma TypeMeta_eqb_refl (a : TypeMeta.t) : TypeMeta.eqb a a = true.
Proof. apply N.eqb_refl. Qed.

Ltac fields :=
  cbn [init_ set_init_ algorithm_ set_algorithm_ current_ set_current_ once_ set_once_
       ws_ set_ws_ status_blob_ gpu_direct_
       GlooParameters.context GlooParameters.inputs GlooParameters.outputs
       GlooParameters.size GlooParameters.meta].
Tactic Notation "fields" "in" hyp(H) :=
  cbn [init_ set_init_ algorithm_ set_algorithm_ current_ set_current_ once_ set_once_
       ws_ set_ws_ status_blob_ gpu_direct_
       GlooParameters.context GlooParameters.inputs GlooParameters.outputs
       GlooParameters.size GlooParameters.meta] in H.

Lemma initialize_with_run (c : ptr) (x1 : Tensor.t) (xs outs : list Tensor.t) ro
    (mode : Mode) (s : AllreduceOp) :
  let inv := invocation c (x1 :: xs) outs ro in
  ∃ s' ev,
    initialize_with inv mode s =
      (match spec_validation x1 xs outs with
       | Some f => Throw f
       | None => if recognized mode then Ok tt
                 else Throw (EnforceNotMet "Unreachable code")
       end, s', ev) ∧
    (spec_validation x1 xs outs = None →
     ∃ o, outs !! 0 = Some o ∧
          init_ s' = GlooParameters.Build c (Tensor.raw_data <$> x1 :: xs)
                       (Tensor.raw_data <$> outs) (Tensor.size o) (Tensor.meta o)).
Proof.
  intros inv. unfold initialize_with, spec_validation, first_violation, same_count.
  rewrite bind_run. erewrite Input_run by reflexivity. run.
  unfold zoom.
  destruct (decide (length outs < length (x1 :: xs))) as [Hlt|Hge].
  { (* an output is missing: the capture of the baseline throws *)
    destruct (update_throws c (x1 :: xs) outs ro (init_ s) Hlt) as (p' & ev & Hup).
    fold inv in Hup. rewrite Hup. run.
    replace (length (x1 :: xs) =? length outs) with false
      by (symmetry; apply Nat.eqb_neq; lia).
    replace (length outs <? length (x1 :: xs)) with true
      by (symmetry; apply Nat.ltb_lt; lia).
    eexists _, _. split; [reflexivity|discriminate]. }
  destruct (lookup_lt_is_Some_2 outs 0) as [o Ho]; [cbn [length] in Hge; lia|].
  destruct (update_run c (x1 :: xs) outs ro (init_ s) o) as (p' & Hup & Hp');
    [lia|done|].
  fold inv in Hup. rewrite Hup. clear Hup.
  destruct p' as [c' ins' outs'' sz' mt']. fields in Hp'.
  destruct Hp' as (-> & -> & Hlen & Htake & -> & ->).
  run. fields. rewrite length_fmap, Hlen.
  replace (length outs <? length (x1 :: xs)) with false
    by (symmetry; apply Nat.ltb_ge; lia).
  rewrite enforce_run.
  destruct (length (x1 :: xs) =? length outs) eqn:Hcount; cbn [negb].
  2: { eexists _, _. split; [reflexivity|discriminate]. }
  apply Nat.eqb_eq in Hcount.
  assert (outs'' = Tensor.raw_data <$> outs) as ->.
  { rewrite <- (take_ge outs'' (length (x1 :: xs))) by lia.
    rewrite Htake. by rewrite take_ge by lia. }
  clear Htake Hlen. run.
  match goal with
  | |- context [for_loop 0 ?n _ ?t] =>
      destruct (aliasing_loop_run t n) as (ev1 & Hloop1 & _)
  end.
  rewrite Hloop1. clear Hloop1.
  fields. rewrite length_fmap.
  replace (aliased (x1 :: xs) outs) with
    (forallb (λ i, (default nullptr ((Tensor.raw_data <$> x1 :: xs) !! i) =?
                    default nullptr ((Tensor.raw_data <$> outs) !! i))%Z)
             (seq 0 (length (x1 :: xs)))).
  2: { unfold aliased. apply forallb_seq_ext. intros j _.
       by rewrite !list_lookup_fmap. }
  match goal with |- context [if forallb ?f ?l then _ else _] =>
    destruct (forallb f l) eqn:Halias end; cbn [negb].
  2: { eexists _, _. split; [reflexivity|discriminate]. }
  run. erewrite Input_run by reflexivity. run.
  match goal with
  | |- context [for_loop 2 _ _ ?t] =>
      destruct (inputs_loop_run c x1 xs outs ro
                  (λ xi, (Tensor.size xi =? Tensor.size x1)%N)
                  "Input(i).size() == size" t) as (ev2 & Hloop2 & _)
  end.
  fold inv in Hloop2. cbv beta in Hloop2. rewrite Hloop2. clear Hloop2.
  unfold uniform_size. cbn [forallb]. rewrite N.eqb_refl. cbn [andb].
  destruct (forallb (λ x, (Tensor.size x =? Tensor.size x1)%N) xs); cbn [negb].
  2: { eexists _, _. split; [reflexivity|discriminate]. }
  run. erewrite Input_run by reflexivity. run.
  match goal with
  | |- context [for_loop 2 _ _ ?t] =>
      destruct (inputs_loop_run c x1 xs outs ro
                  (λ xi, TypeMeta.eqb (Tensor.meta xi) (Tensor.meta x1))
                  "Input(i).meta() == meta" t) as (ev3 & Hloop3 & _)
  end.
  fold inv in Hloop3. cbv beta in Hloop3. rewrite Hloop3. clear Hloop3.
  unfold uniform_meta. cbn [forallb]. rewrite TypeMeta_eqb_refl. cbn [andb].
  destruct (forallb (λ x, TypeMeta.eqb (Tensor.meta x) (Tensor.meta x1)) xs); cbn [negb].
  2: { eexists _, _. split; [reflexivity|discriminate]. }
  run. unfold recognized.
  unfold initializeRingFull, initializeRingChunked, initializeHalvingDoubling, construct.
  destruct (mode =? RING_FULL)%N; cbn [orb].
  { run. eexists _, _. split; [reflexivity|]. intros _. exists o. done. }
  destruct (mode =? RING_CHUNKED)%N; cbn [orb].
  { run. eexists _, _. split; [reflexivity|]. intros _. exists o. done. }
  destruct (mode =? HALVING_DOUBLING)%N; cbn [orb].
  { run. eexists _, _. split; [reflexivity|]. intros _. exists o. done. }
  rewrite enforce_run. eexists _, _. split; [reflexivity|]. intros _. exists o. done.
Qed.

(** ** RunOnDevice *)

Ltac done_trace :=
  cbn [app]; rewrite ?app_nil_r, <- ?app_assoc; cbn [app]; reflexivity.

Section RunOnDeviceRuns.
Variable signalFailure : Blob → string → Blob.
Variable inv : Invocation.

(** An invocation that finds the once-flag set goes straight to the drift
    check. *)
Lemma RunOnDevice_ready (s : AllreduceOp) :
  once_ s = true →
  RunOnDevice signalFailure inv s =
  match update inv (current_ s) with
  | (Throw e, p', ev) => (Throw e, set_current_ p' s, ev)
  | (Ok _, p', ev) =>
      let s1 := set_current_ p' s in
      if GlooParameters.eqb p' (init_ s) then
        match algorithm_ s with
        | None => (Throw NullDereference, s1, ev)
        | Some _ =>
            match run_outcome inv with
            | None => (Ok true, s1, ev ++ [EvRun])
            | Some (IoException what) =>
                let log := EvLogError ("Caught gloo IO exception: " +:+ what) in
                if negb (String.eqb (status_blob_ s) "") then
                  match ws_ s !! status_blob_ s with
                  | Some blob =>
                      (Ok false,
                       set_ws_ (<[status_blob_ s := signalFailure blob what]> (ws_ s)) s1,
                       ev ++ [EvRun; log])
                  | None => (Throw NullDereference, s1, ev ++ [EvRun; log])
                  end
                else (Throw (IoException what), s1, ev ++ [EvRun; log])
            | Some f => (Throw f, s1, ev ++ [EvRun])
            end
        end
      else (Throw (EnforceNotMet "Inputs/outputs have changed"), s1, ev)
  end.
Proof.
  intros Honce. unfold RunOnDevice. rewrite bind_run. unfold call_once at 1.
  rewrite Honce. run. unfold zoom.
  destruct (update inv (current_ s)) as [[[[]|e] p'] ev]; [|reflexivity].
  run. fields. rewrite enforce_run.
  destruct (GlooParameters.eqb p' (init_ s)); run; [|done_trace].
  run. unfold try_catch_IoException, algorithm_run, signal_status_blob, GetBlob.
  run. fields.
  destruct (algorithm_ s) as [a|]; run; [|done_trace].
  destruct (run_outcome inv) as [[msg|what|what|]|]; run; try done_trace.
  fields. destruct (negb (String.eqb (status_blob_ s) "")); run; [|done_trace].
  fields. destruct (ws_ s !! status_blob_ s); run; done_trace.
Qed.

(** The invocation that finds the flag unset runs [initialize] first; when
    that returns, the rest is an invocation that finds the flag set. *)
Lemma RunOnDevice_first (s : AllreduceOp) :
  once_ s = false →
  RunOnDevice signalFailure inv s =
  match initialize inv s with
  | (Throw e, s1, ev1) => (Throw e, s1, ev1)
  | (Ok _, s1, ev1) =>
      match RunOnDevice signalFailure inv (set_once_ true s1) with
      | (r, s2, ev2) => (r, s2, ev1 ++ ev2)
      end
  end.
Proof.
  intros Honce. unfold RunOnDevice.
  match goal with |- context [call_once _ ≫= ?k] => set (rest := k) end.
  rewrite (bind_run _ rest s). unfold call_once at 1.
  rewrite Honce. destruct (initialize inv s) as [[[[]|e] s1] ev1]; [|reflexivity].
  rewrite (bind_run _ rest (set_once_ true s1)). unfold call_once. fields.
  destruct (rest () (set_once_ true s1)) as [[r s2] ev2]. reflexivity.
Qed.
End RunOnDeviceRuns.

(** ** What initialize writes and emits *)

(** [initialize_with] touches [init_] and [algorithm_] only, and its events
    are those of [update], of its own reads of the inputs, and of the
    construction. *)
Lemma initialize_with_steady {T} (g : AllreduceOp → T) (P : Event → Prop)
    (inv : Invocation) (mode : Mode) :
  (∀ p s, g (set_init_ p s) = g s) →
  (∀ a s, g (set_algorithm_ a s) = g s) →
  P (EvInput 1) →
  (∀ j, 2 ≤ j < InputSize inv → P (EvInput j)) →
  steady (λ _ : GlooParameters.t, tt) P (λ _, True) (update inv) →
  P (EvConstruct mode) →
  steady g P (λ _, True) (initialize_with inv mode).
Proof.
  intros Hg1 Hg2 HP1 HPj Hup HPc. unfold initialize_with.
  repeat (apply steady_bind; [repeat steady_step; try done|intros ?]).
  1: apply steady_zoom; [exact Hup | done].
  1, 2: apply HPj; lia.
  assert (Hc : steady g P (λ _, True) (construct mode)).
  { unfold construct. apply steady_bind; [by apply steady_tell|].
    intros _. apply steady_modify. intros s. apply Hg2. }
  unfold initializeRingFull, initializeRingChunked, initializeHalvingDoubling.
  destruct (mode =? RING_FULL)%N eqn:E1; [by apply N.eqb_eq in E1; subst mode|].
  destruct (mode =? RING_CHUNKED)%N eqn:E2; [by apply N.eqb_eq in E2; subst mode|].
  destruct (mode =? HALVING_DOUBLING)%N eqn:E3; [by apply N.eqb_eq in E3; subst mode|].
  by apply steady_enforce.
Qed.

(** Every algorithm that [initialize_with mode] constructs is of [mode]. *)
Lemma initialize_with_constructs (inv : Invocation) (mode : Mode) (s : AllreduceOp) m :
  EvConstruct m ∈ (initialize_with inv mode s).2 → m = mode.
Proof.
  pose proof (initialize_with_steady (λ _, tt) (λ e, ∀ m, e = EvConstruct m → m = mode)
                inv mode) as Hst.
  specialize (Hst ltac:(done) ltac:(done) ltac:(done) ltac:(done)).
  specialize (Hst ltac:(by apply update_steady) ltac:(congruence) s).
  destruct (initialize_with inv mode s) as [[r s'] ev]. cbn [snd].
  destruct Hst as (_ & Hev & _). intros Hin.
  rewrite Forall_forall in Hev. by apply (Hev _ Hin).
Qed.

(** What [initialize_with] leaves alone. *)
Lemma initialize_with_frame (inv : Invocation) (mode : Mode) (s : AllreduceOp) :
  match initialize_with inv mode s with
  | (_, s', _) =>
      once_ s' = once_ s ∧ current_ s' = current_ s ∧ ws_ s' = ws_ s ∧
      status_blob_ s' = status_blob_ s ∧ gpu_direct_ s' = gpu_direct_ s
  end.
Proof.
  assert (Hst : steady (λ s, (once_ s, current_ s, ws_ s, status_blob_ s, gpu_direct_ s))
                  (λ _, True) (λ _, True) (initialize_with inv mode)).
  { apply initialize_with_steady; try (intros; exact I); try (intros; reflexivity).
    apply update_steady; intros; exact I. }
  specialize (Hst s).
  destruct (initialize_with inv mode s) as [[r s'] ev].
  destruct Hst as (Hg & _). injection Hg as H1 H2 H3 H4 H5. done.
Qed.

Lemma update_accesses (inv : Invocation) (p : GlooParameters.t) e :
  e ∈ (update inv p).2 → is_access e = true.
Proof.
  pose proof (update_steady inv accesses_only (λ _, True)
                ltac:(done) ltac:(done) ltac:(done) ltac:(done) ltac:(done) p) as Hst.
  destruct (update inv p) as [[r p'] ev]. destruct Hst as (_ & Hev & _).
  rewrite Forall_forall in Hev. apply Hev.
Qed.

(** An invocation that finds the flag set writes neither [init_] nor
    [algorithm_] nor the flag. *)
Lemma RunOnDevice_ready_frame sf (inv : Invocation) (s : AllreduceOp) :
  once_ s = true →
  match RunOnDevice sf inv s with
  | (_, s', _) => init_ s' = init_ s ∧ algorithm_ s' = algorithm_ s ∧ once_ s' = true
  end.
Proof.
  intros Honce. rewrite RunOnDevice_ready by done.
  destruct (update inv (current_ s)) as [[[[]|e] p'] ev]; [|done].
  cbv zeta. destruct (GlooParameters.eqb p' (init_ s)); [|done].
  destruct (algorithm_ s) as [a|] eqn:Ha; [|by fields; rewrite ?Ha].
  destruct (run_outcome inv) as [[msg|what|what|]|]; try by fields; rewrite ?Ha.
  destruct (negb (String.eqb (status_blob_ s) "")); [|by fields; rewrite ?Ha].
  destruct (ws_ s !! status_blob_ s); by fields; rewrite ?Ha.
Qed.

(** ** The state of an operator between invocations *)

Lemma AllreduceOp_new_consistent (d : OperatorDef) (ws : gmap string Blob) (op : AllreduceOp) :
  AllreduceOp_new d ws = Ok op → once_ op = false ∧ consistent op.
Proof.
  unfold AllreduceOp_new.
  destruct (GetSingleArgument_string d "status_blob" "") as [name|]; [|discriminate].
  destruct (GetSingleArgument_bool d "gpu_direct" false) as [direct|]; [|discriminate].
  intros [= <-]. split; [done|]. split; fields; [discriminate|].
  intros Hname. apply String.eqb_neq in Hname. rewrite Hname. cbn [negb].
  unfold CreateBlob. destruct (ws !! name) eqn:Hws; [by rewrite Hws|].
  rewrite lookup_insert_eq. eauto.
Qed.

Lemma consistent_set_current (p : GlooParameters.t) (s : AllreduceOp) :
  consistent s → consistent (set_current_ p s).
Proof. intros [Halg Hws]. by split. Qed.

Lemma RunOnDevice_ready_consistent sf (inv : Invocation) (s : AllreduceOp) :
  once_ s = true → consistent s → consistent (RunOnDevice sf inv s).1.2.
Proof.
  intros Honce Hs. rewrite RunOnDevice_ready by done.
  pose proof (consistent_set_current) as Hcur.
  destruct (update inv (current_ s)) as [[[[]|e] p'] ev]; [|by apply Hcur].
  cbv zeta. destruct (GlooParameters.eqb p' (init_ s)); [|by apply Hcur].
  destruct (algorithm_ s) as [a|] eqn:Ha; [|by apply Hcur].
  destruct (run_outcome inv) as [[msg|what|what|]|]; try by apply Hcur.
  destruct (negb (String.eqb (status_blob_ s) "")); [|by apply Hcur].
  destruct (ws_ s !! status_blob_ s); [|by apply Hcur].
  split; cbn; [by rewrite Ha|]. intros _. rewrite lookup_insert_eq. eauto.
Qed.

Lemma RunOnDevice_consistent sf (inv : Invocation) (s : AllreduceOp) :
  consistent s → consistent (RunOnDevice sf inv s).1.2.
Proof.
  intros Hs. destruct (once_ s) eqn:Honce.
  { by apply RunOnDevice_ready_consistent. }
  rewrite RunOnDevice_first by done. unfold initialize.
  pose proof (initialize_with_frame inv HALVING_DOUBLING s) as Hfr.
  pose proof (initialize_with_returns inv HALVING_DOUBLING s) as Hret.
  destruct (initialize_with inv HALVING_DOUBLING s) as [[[[]|e] s1] ev1].
  - destruct Hfr as (Ho & _ & Hw & Hn & _).
    destruct (Hret tt s1 ev1 eq_refl) as (_ & Halg & _).
    assert (Hs1 : consistent (set_once_ true s1)).
    { destruct Hs as [_ Hws]. split; fields; [by rewrite Halg|].
      rewrite Hw, Hn. exact Hws. }
    pose proof (RunOnDevice_ready_consistent sf inv (set_once_ true s1) eq_refl Hs1) as Hc.
    destruct (RunOnDevice sf inv (set_once_ true s1)) as [[r s2] ev2]. exact Hc.
  - destruct Hfr as (Ho & _ & Hw & Hn & _). destruct Hs as [_ Hws].
    split; cbn [fst snd]; [congruence|]. rewrite Hw, Hn. exact Hws.
Qed.

(** ** Events that are neither a run() nor a log line *)

Lemma initialize_silent (inv : Invocation) (s : AllreduceOp) :
  Forall silent (initialize inv s).2.
Proof.
  assert (Hst : steady (λ _ : AllreduceOp, tt) silent (λ _, True) (initialize inv)).
  { apply initialize_with_steady; try done. by apply update_steady. }
  specialize (Hst s). destruct (initialize inv s) as [[r s1] ev]. tauto.
Qed.

Lemma update_silent (inv : Invocation) (p : GlooParameters.t) :
  Forall silent (update inv p).2.
Proof.
  pose proof (update_steady inv silent (λ _, True)
                ltac:(done) ltac:(done) ltac:(done) ltac:(done) ltac:(done) p) as Hst.
  destruct (update inv p) as [[r p'] ev]. tauto.
Qed.

Lemma silent_no_run (ev : list Event) : Forall silent ev → EvRun ∉ ev.
Proof.
  intros Hev Hin. rewrite Forall_forall in Hev. by destruct (Hev _ Hin).
Qed.

(** * The claims *)

Example plain_op_new : AllreduceOp_new plain_def ∅ = Ok plain_op.
Proof. reflexivity. Qed.

Example ring_full_op_new : AllreduceOp_new ring_full_def ∅ = Ok plain_op.
Proof. vm_compute. reflexivity. Qed.

Example status_op_new : AllreduceOp_new status_def ∅ = Ok status_op.
Proof. vm_compute. reflexivity. Qed.

Example first_step_runs :
  ∃ s ev, RunOnDevice status_written first_step plain_op = (Ok true, s, ev) ∧
          once_ s = true.
Proof. eexists _, _. vm_compute. split; reflexivity. Qed.

(** ** C1 *)

(** C1: on an invocation that finds the operator initialized, when the
    snapshot that [update] recomputes differs from the baseline [init_],
    [RunOnDevice] throws the enforce fault "Inputs/outputs have changed",
    and the trace of the invocation holds no [run()]. *)
Theorem drift_fails_before_run sf (inv : Invocation) (s : AllreduceOp) p' ev :
  once_ s = true →
  update inv (current_ s) = (Ok tt, p', ev) →
  GlooParameters.eqb p' (init_ s) = false →
  RunOnDevice sf inv s =
    (Throw (EnforceNotMet "Inputs/outputs have changed"), set_current_ p' s, ev) ∧
  EvRun ∉ ev.
Proof.
  intros Honce Hup Hne. split.
  - rewrite RunOnDevice_ready by done. rewrite Hup. cbv zeta. by rewrite Hne.
  - intros Hin. pose proof (update_accesses inv (current_ s) EvRun) as Hacc.
    rewrite Hup in Hacc. by specialize (Hacc Hin).
Qed.

Lemma drift_fails_before_run_witness :
  ∃ p' ev,
    RunOnDevice status_written moved_step (after first_step plain_op) =
      (Throw (EnforceNotMet "Inputs/outputs have changed"),
       set_current_ p' (after first_step plain_op), ev) ∧
    EvRun ∉ ev.
Proof.
  eexists _, _.
  apply (drift_fails_before_run status_written moved_step (after first_step plain_op)).
  - reflexivity.
  - vm_compute. reflexivity.
  - vm_compute. reflexivity.
Defined.

(** ** C7 *)

(** C7: an invocation that finds the operator initialized leaves the
    baseline snapshot [init_] and the stored binding [algorithm_] as they
    were (and the once-flag set), whatever its result: success, the drift
    fault, a communication fault, or any other. *)
Theorem initialized_run_keeps_baseline sf (inv : Invocation) (s : AllreduceOp) :
  once_ s = true →
  match RunOnDevice sf inv s with
  | (_, s', _) => init_ s' = init_ s ∧ algorithm_ s' = algorithm_ s ∧ once_ s' = true
  end.
Proof. exact (RunOnDevice_ready_frame sf inv s). Qed.

Lemma initialized_run_keeps_baseline_witness :
  let s := after first_step status_op in
  init_ (after failing_step s) = init_ s ∧
  algorithm_ (after failing_step s) = algorithm_ s ∧
  once_ (after failing_step s) = true.
Proof.
  exact (initialized_run_keeps_baseline status_written failing_step
           (after first_step status_op) eq_refl).
Defined.

(** ** C5 *)

Lemma RunOnDevice_ready_handles sf (inv : Invocation) (s : AllreduceOp) :
  once_ s = true → consistent s →
  run_outcome_handled sf inv s (RunOnDevice sf inv s).
Proof.
  intros Honce [Halg Hws]. rewrite RunOnDevice_ready by done.
  pose proof (update_silent inv (current_ s)) as Hsil.
  destruct (update inv (current_ s)) as [[[[]|e] p'] ev]; cbn [snd] in Hsil.
  2: { intros Hin. by apply silent_no_run in Hin. }
  assert (Hnorun : ∀ r, run_outcome_handled sf inv s (r, set_current_ p' s, ev)).
  { intros r Hin. by apply silent_no_run in Hin. }
  cbv zeta. destruct (GlooParameters.eqb p' (init_ s)); [|apply Hnorun].
  destruct (algorithm_ s) as [a|]; [|apply Hnorun].
  unfold run_outcome_handled.
  destruct (run_outcome inv) as [[msg|other|what|]|].
  1, 2, 4, 5: (intros _; split; [done|by intros what' Hwhat]).
  destruct (negb (String.eqb (status_blob_ s) "")) eqn:Hname.
  - apply negb_true_iff, String.eqb_neq in Hname.
    destruct (Hws Hname) as [blob Hblob]. rewrite Hblob.
    intros _. split; [done|]. intros what' [= <-]. split; [|done].
    intros _. by exists blob.
  - apply negb_false_iff, String.eqb_eq in Hname.
    intros _. split; [done|]. intros what' [= <-]. split; [by rewrite Hname|done].
Qed.

(** C5: in any state the operator is in between invocations, initialized or
    not, an invocation of [RunOnDevice] that reaches [run()] ends by what
    [run()] does: when it returns, true is returned; when it throws an
    IoException and a status blob is named, [signalFailure] is applied to
    that blob with the exception, its result is stored under the name, and
    false is returned; when it throws an IoException and no status blob is
    named, that IoException is thrown on.  This holds of the invocation that
    initializes the operator as of every later one. *)
Theorem communication_fault_handling sf (inv : Invocation) (s : AllreduceOp) :
  consistent s →
  match RunOnDevice sf inv s with
  | (r, s', ev) =>
      EvRun ∈ ev →
      (run_outcome inv = None → r = Ok true ∧ ws_ s' = ws_ s) ∧
      (∀ what, run_outcome inv = Some (IoException what) →
         (status_blob_ s ≠ "" →
          ∃ blob, ws_ s !! status_blob_ s = Some blob ∧ r = Ok false ∧
                  ws_ s' = <[status_blob_ s := sf blob what]> (ws_ s)) ∧
         (status_blob_ s = "" → r = Throw (IoException what) ∧ ws_ s' = ws_ s))
  end.
Proof.
  intros Hs. change (run_outcome_handled sf inv s (RunOnDevice sf inv s)).
  destruct (once_ s) eqn:Honce; [by apply RunOnDevice_ready_handles|].
  rewrite RunOnDevice_first by done.
  pose proof (initialize_with_frame inv HALVING_DOUBLING s) as Hfr.
  pose proof (initialize_with_returns inv HALVING_DOUBLING s) as Hret.
  pose proof (initialize_silent inv s) as Hsil.
  unfold initialize in *.
  destruct (initialize_with inv HALVING_DOUBLING s) as [[[[]|e] s1] ev1]; cbn [snd] in Hsil.
  2: { intros Hin. by apply silent_no_run in Hin. }
  destruct Hfr as (_ & _ & Hw & Hn & _).
  destruct (Hret tt s1 ev1 eq_refl) as (_ & Halg & _).
  assert (Hs1 : consistent (set_once_ true s1)).
  { destruct Hs as [_ Hws]. split; fields; [by rewrite Halg|]. by rewrite Hw, Hn. }
  pose proof (RunOnDevice_ready_handles sf inv (set_once_ true s1) eq_refl Hs1) as Hready.
  destruct (RunOnDevice sf inv (set_once_ true s1)) as [[r s2] ev2].
  unfold run_outcome_handled in *. fields in Hready. rewrite Hw, Hn in Hready.
  intros [Hin|Hin]%elem_of_app; [by apply silent_no_run in Hin|by apply Hready].
Qed.

(** The invocation that initializes the operator, and a later one: with a
    status blob the IoException is signalled and false returned, without one
    it is thrown on, and a [run()] that returns gives true. *)
Lemma communication_fault_handling_witness :
  (∃ s' ev, RunOnDevice status_written failing_step status_op = (Ok false, s', ev) ∧
            ws_ s' = <["allreduce_status" := status_written BlobEmpty "peer unreachable"]>
                       (ws_ status_op)) ∧
  (∃ s' ev, RunOnDevice status_written failing_step plain_op =
              (Throw (IoException "peer unreachable"), s', ev)) ∧
  (∃ s' ev, RunOnDevice status_written first_step plain_op = (Ok true, s', ev)) ∧
  (∃ s' ev, RunOnDevice status_written failing_step (after first_step status_op) =
              (Ok false, s', ev) ∧
            ws_ s' = <["allreduce_status" := status_written BlobEmpty "peer unreachable"]>
                       (ws_ (after first_step status_op))).
Proof.
  assert (Hc0 : consistent status_op).
  { split; [discriminate|]. intros _. eexists. vm_compute. reflexivity. }
  assert (Hc1 : consistent plain_op).
  { split; [discriminate|]. intros Hname. by destruct Hname. }
  assert (Hc2 : consistent (after first_step status_op)).
  { split; intros _; eexists; vm_compute; reflexivity. }
  split; [|split; [|split]].
  - pose proof (communication_fault_handling status_written failing_step status_op Hc0) as H.
    destruct (RunOnDevice status_written failing_step status_op) as [[r s'] ev] eqn:Hrun.
    vm_compute in Hrun. injection Hrun as <- <- <-.
    destruct H as [_ Hio]; [by repeat constructor|].
    destruct (Hio "peer unreachable" eq_refl) as [Hnamed _].
    destruct (Hnamed ltac:(discriminate)) as (blob & Hblob & _ & Hws).
    vm_compute in Hblob. injection Hblob as <-.
    eexists _, _. split; [reflexivity|exact Hws].
  - pose proof (communication_fault_handling status_written failing_step plain_op Hc1) as H.
    destruct (RunOnDevice status_written failing_step plain_op) as [[r s'] ev] eqn:Hrun.
    vm_compute in Hrun. injection Hrun as <- <- <-.
    destruct H as [_ Hio]; [by repeat constructor|].
    destruct (Hio "peer unreachable" eq_refl) as [_ Hplain].
    destruct (Hplain eq_refl) as [Hr _].
    eexists _, _. exact (f_equal (λ x, (x, _, _)) Hr).
  - pose proof (communication_fault_handling status_written first_step plain_op Hc1) as H.
    destruct (RunOnDevice status_written first_step plain_op) as [[r s'] ev] eqn:Hrun.
    vm_compute in Hrun. injection Hrun as <- <- <-.
    destruct H as [Hok _]; [by repeat constructor|].
    destruct (Hok eq_refl) as [Hr _].
    eexists _, _. exact (f_equal (λ x, (x, _, _)) Hr).
  - pose proof (communication_fault_handling status_written failing_step
                  (after first_step status_op) Hc2) as H.
    destruct (RunOnDevice status_written failing_step (after first_step status_op))
      as [[r s'] ev] eqn:Hrun.
    vm_compute in Hrun. injection Hrun as <- <- <-.
    destruct H as [_ Hio]; [by repeat constructor|].
    destruct (Hio "peer unreachable" eq_refl) as [Hnamed _].
    destruct (Hnamed ltac:(discriminate)) as (blob & Hblob & _ & Hws).
    vm_compute in Hblob. injection Hblob as <-.
    eexists _, _. split; [reflexivity|exact Hws].
Defined.

(** ** C3 *)

Lemma ptrs_eqb_eq (a b : list ptr) : GlooParameters.ptrs_eqb a b = true ↔ a = b.
Proof.
  revert b. induction a as [|x a IH]; intros [|y b]; cbn; try done.
  rewrite andb_true_iff, Z.eqb_eq, IH. split; [by intros [-> ->]|by intros [= -> ->]].
Qed.

Lemma GlooParameters_eqb_true (p q : GlooParameters.t) :
  GlooParameters.eqb p q = true ↔
  GlooParameters.context p = GlooParameters.context q ∧
  GlooParameters.inputs p = GlooParameters.inputs q ∧
  GlooParameters.outputs p = GlooParameters.outputs q ∧
  GlooParameters.size p = GlooParameters.size q.
Proof.
  unfold GlooParameters.eqb.
  rewrite !andb_true_iff, Z.eqb_eq, !ptrs_eqb_eq, N.eqb_eq. tauto.
Qed.

(** C3: [operator==] on two snapshots holds exactly when their contexts,
    input addresses, output addresses and element counts are the same; the
    element type takes no part, so a snapshot compares equal to itself with
    any other type, and an initialized operator whose buffers change type
    only passes the drift check and runs. *)
Theorem snapshot_equality_leaves_type_out :
  (∀ p q,
     GlooParameters.eqb p q = true ↔
     GlooParameters.context p = GlooParameters.context q ∧
     GlooParameters.inputs p = GlooParameters.inputs q ∧
     GlooParameters.outputs p = GlooParameters.outputs q ∧
     GlooParameters.size p = GlooParameters.size q) ∧
  (∀ p m, GlooParameters.eqb (GlooParameters.set_meta m p) p = true) ∧
  (∃ s ev,
     RunOnDevice status_written retyped_step (after first_step plain_op) =
       (Ok true, s, ev) ∧
     EvRun ∈ ev ∧
     TypeMeta.eqb (GlooParameters.meta (current_ s)) (GlooParameters.meta (init_ s)) = false).
Proof.
  split; [exact GlooParameters_eqb_true|]. split.
  - intros p m. by apply GlooParameters_eqb_true.
  - eexists _, _. vm_compute. split; [reflexivity|]. split; [|reflexivity].
    set_solver.
Qed.

(** ** C9 *)

Lemma update_reads_first_output (inv : Invocation) :
  ok_post (λ p' _, ∃ o, inv_outputs inv !! 0 = Some o ∧
                        GlooParameters.size p' = Tensor.size o ∧
                        GlooParameters.meta p' = Tensor.meta o)
          (update inv).
Proof.
  unfold update.
  do 6 (apply ok_post_bind; [done|intros ?]).
  intros p r p' ev. unfold Output. run.
  destruct (inv_outputs inv !! 0) as [o|]; run; [|discriminate].
  intros [= <- <-]. exists o. done.
Qed.

(** C9: the snapshot that [update] computes has the element count and the
    element type of output 0 and of no other buffer; and there are two
    successive invocations, with the same context, the same addresses and
    the same count in the first buffer, the second buffer going from four
    elements to nine, of which the second passes the drift check and runs. *)
Theorem snapshot_count_from_first_output :
  (∀ inv p p' ev,
     update inv p = (Ok tt, p', ev) →
     ∃ o, inv_outputs inv !! 0 = Some o ∧
          GlooParameters.size p' = Tensor.size o ∧
          GlooParameters.meta p' = Tensor.meta o) ∧
  (∃ c a b b',
     Tensor.raw_data b' = Tensor.raw_data b ∧ Tensor.size b' ≠ Tensor.size b ∧
     ∀ sf, ∃ s1 ev1 s2 ev2,
       RunOnDevice sf (invocation c [a; b] [a; b] None) plain_op = (Ok true, s1, ev1) ∧
       RunOnDevice sf (invocation c [a; b'] [a; b'] None) s1 = (Ok true, s2, ev2) ∧
       EvRun ∈ ev2).
Proof.
  split.
  - intros inv p p' ev Hrun. exact (update_reads_first_output inv p tt p' ev Hrun).
  - exists 64%Z, tensor_a, tensor_b, (Tensor.Build 8192 9 float32).
    split; [reflexivity|]. split; [discriminate|].
    intros sf. eexists _, _, _, _. vm_compute.
    split; [reflexivity|]. split; [reflexivity|]. set_solver.
Qed.

(** ** C4 *)

(** [aliased] says what its name says: with as many outputs as tensors, every
    tensor has the address of the output of its index. *)
Lemma aliased_true (ts outs : list Tensor.t) :
  length ts = length outs →
  aliased ts outs = true ↔ Tensor.raw_data <$> ts = Tensor.raw_data <$> outs.
Proof.
  intros Hlen. unfold aliased. rewrite forallb_forall. split.
  - intros Hall. apply list_eq_same_length with (length ts);
      [by rewrite length_fmap|by rewrite length_fmap|].
    intros i a b Hi Ha Hb. rewrite list_lookup_fmap in Ha, Hb.
    specialize (Hall i ltac:(apply in_seq; lia)).
    destruct (ts !! i), (outs !! i); cbn in *; try done.
    apply Z.eqb_eq in Hall. congruence.
  - intros Heq i _. rewrite <- !list_lookup_fmap, Heq. apply Z.eqb_refl.
Qed.

Lemma throw_not_constructed (inv : Invocation) (mode : Mode) (s : AllreduceOp) f s' ev :
  initialize_with inv mode s = (Throw f, s', ev) →
  algorithm_ s' = algorithm_ s ∧ ∀ m, EvConstruct m ∉ ev.
Proof.
  intros Hrun. destruct (initialize_with_throws inv mode s f s' ev Hrun) as (Hg & Hev & _).
  split; [done|]. intros m Hin. rewrite Forall_forall in Hev. by specialize (Hev _ Hin).
Qed.

(** C4: on an invocation with the context and the tensors [x1 :: xs],
    [initialize] throws the fault of the first of the four validations that
    fails, in the order: as many inputs as outputs, the same address at every
    index, the element count of the first tensor in all, the element type of
    the first tensor in all; when it throws, [algorithm_] is as it was and
    nothing has been constructed; when none fails it returns with the
    halving-doubling algorithm constructed on the baseline. *)
Theorem initialize_validates_in_order (c : ptr) (x1 : Tensor.t) (xs outs : list Tensor.t)
    ro (s : AllreduceOp) :
  match initialize (invocation c (x1 :: xs) outs ro) s with
  | (r, s', ev) =>
      r = match first_violation x1 xs outs with
          | Some v => Throw (fault_of (length outs <? length (x1 :: xs)) v)
          | None => Ok tt
          end ∧
      (∀ f, r = Throw f → algorithm_ s' = algorithm_ s ∧ ∀ m, EvConstruct m ∉ ev) ∧
      (r = Ok tt →
       algorithm_ s' = Some {| alg_mode := HALVING_DOUBLING; alg_params := init_ s' |} ∧
       EvConstruct HALVING_DOUBLING ∈ ev)
  end.
Proof.
  unfold initialize.
  destruct (initialize_with_run c x1 xs outs ro HALVING_DOUBLING s) as (s' & ev & Hrun & _).
  pose proof (throw_not_constructed (invocation c (x1 :: xs) outs ro) HALVING_DOUBLING s)
    as Hthrow.
  pose proof (initialize_with_returns (invocation c (x1 :: xs) outs ro) HALVING_DOUBLING s)
    as Hret.
  rewrite Hrun. change (recognized HALVING_DOUBLING) with true in *.
  unfold spec_validation in *.
  destruct (first_violation x1 xs outs) as [v|]; cbn [fmap option_fmap option_map] in *.
  - split; [done|]. split; [|discriminate].
    intros f [= <-]. exact (Hthrow _ s' ev Hrun).
  - split; [done|]. split; [discriminate|].
    intros _. by destruct (Hret tt s' ev Hrun) as (_ & Halg & Hev).
Qed.

(** The four validations fail one by one on the examples. *)
Example fewer_outputs_fault :
  (initialize (invocation 64 [tensor_a; tensor_b] [tensor_a] None) plain_op).1.1 =
  Throw (OutOfRange "Output").
Proof. reflexivity. Qed.

Example more_outputs_fault :
  (initialize (invocation 64 [tensor_a] [tensor_a; tensor_b] None) plain_op).1.1 =
  Throw (EnforceNotMet "init_.inputs.size() == init_.outputs.size()").
Proof. reflexivity. Qed.

Example not_in_place_fault :
  (initialize (invocation 64 [tensor_a; tensor_b] [tensor_b; tensor_a] None) plain_op).1.1 =
  Throw (EnforceNotMet "init_.inputs[i] == init_.outputs[i]").
Proof. reflexivity. Qed.

Example count_fault :
  let b := Tensor.Build 8192 9 int32 in
  (initialize (invocation 64 [tensor_a; b] [tensor_a; b] None) plain_op).1.1 =
  Throw (EnforceNotMet "Input(i).size() == size").
Proof. reflexivity. Qed.

Example type_fault :
  let b := Tensor.Build 8192 4 int32 in
  (initialize (invocation 64 [tensor_a; b] [tensor_a; b] None) plain_op).1.1 =
  Throw (EnforceNotMet "Input(i).meta() == meta").
Proof. reflexivity. Qed.

(** ** C8 *)

(** C8: for a mode among RING_FULL, RING_CHUNKED and HALVING_DOUBLING, the
    body of [initialize] never throws "Unreachable code", on any invocation
    and from any state; and on an invocation that passes the validations it
    returns, with the algorithm of that mode constructed on the baseline. *)
Theorem recognized_mode_dispatches (mode : Mode) :
  recognized mode = true →
  (∀ inv s, (initialize_with inv mode s).1.1 ≠ Throw (EnforceNotMet "Unreachable code")) ∧
  (∀ c x1 xs outs ro s,
     first_violation x1 xs outs = None →
     ∃ s' ev,
       initialize_with (invocation c (x1 :: xs) outs ro) mode s = (Ok tt, s', ev) ∧
       algorithm_ s' = Some {| alg_mode := mode; alg_params := init_ s' |} ∧
       EvConstruct mode ∈ ev).
Proof.
  intros Hmode. split.
  - intros inv s Hrun. destruct (initialize_with inv mode s) as [[r s'] ev] eqn:Hinit.
    cbn in Hrun. subst r.
    destruct (initialize_with_throws inv mode s _ s' ev Hinit) as (_ & _ & Hf).
    specialize (Hf eq_refl). congruence.
  - intros c x1 xs outs ro s Hvalid.
    destruct (initialize_with_run c x1 xs outs ro mode s) as (s' & ev & Hrun & _).
    unfold spec_validation in Hrun. rewrite Hvalid, Hmode in Hrun. exists s', ev. split; [done|].
    destruct (initialize_with_returns _ mode s tt s' ev Hrun) as (_ & Halg & Hev). done.
Qed.

Lemma recognized_mode_dispatches_witness :
  (∀ inv s, (initialize_with inv RING_CHUNKED s).1.1 ≠
            Throw (EnforceNotMet "Unreachable code")) ∧
  (∀ c x1 xs outs ro s,
     first_violation x1 xs outs = None →
     ∃ s' ev,
       initialize_with (invocation c (x1 :: xs) outs ro) RING_CHUNKED s = (Ok tt, s', ev) ∧
       algorithm_ s' = Some {| alg_mode := RING_CHUNKED; alg_params := init_ s' |} ∧
       EvConstruct RING_CHUNKED ∈ ev).
Proof. exact (recognized_mode_dispatches RING_CHUNKED eq_refl). Defined.

(** Any other mode value reaches the defensive fault, once the validations
    have passed. *)
Lemma unrecognized_mode_is_unreachable (mode : Mode) c x1 xs outs ro s :
  recognized mode = false → first_violation x1 xs outs = None →
  (initialize_with (invocation c (x1 :: xs) outs ro) mode s).1.1 =
  Throw (EnforceNotMet "Unreachable code").
Proof.
  intros Hmode Hvalid.
  destruct (initialize_with_run c x1 xs outs ro mode s) as (s' & ev & Hrun & _).
  unfold spec_validation in Hrun. by rewrite Hrun, Hvalid, Hmode.
Qed.

(** ** C10 *)

Lemma update_events_in_bounds c (ts outs : list Tensor.t) ro :
  ts ≠ [] → length outs = length ts →
  Forall (λ e, in_bounds (invocation c ts outs ro) e = true) (update_events (length ts)).
Proof.
  intros Hts Hlen. assert (0 < length ts) by (destruct ts; [done|cbn; lia]).
  unfold update_events, in_bounds.
  rewrite InputSize_invocation, OutputSize_invocation, Hlen.
  apply Forall_cons. split; [by apply Nat.ltb_lt; lia|].
  apply Forall_app. split.
  - apply Forall_flat_map, Forall_forall. intros i Hi.
    apply elem_of_seq in Hi. repeat constructor; apply Nat.ltb_lt; lia.
  - repeat constructor; apply Nat.ltb_lt; lia.
Qed.

Lemma update_in_bounds c (ts outs : list Tensor.t) ro :
  ts ≠ [] → length outs = length ts →
  steady (λ _ : GlooParameters.t, tt)
         (λ e, in_bounds (invocation c ts outs ro) e = true) (λ _, True)
         (update (invocation c ts outs ro)).
Proof.
  intros Hts Hlen p.
  destruct (lookup_lt_is_Some_2 outs 0) as [o Ho].
  { rewrite Hlen. destruct ts; [done|cbn; lia]. }
  destruct (update_run c ts outs ro p o) as (p' & Hrun & _); [lia|done|].
  rewrite Hrun. split; [done|]. split; [by apply update_events_in_bounds|done].
Qed.

(** C10: on an invocation that supplies the context, at least one tensor
    and as many outputs as tensors, [update] returns, and every [Input(i)]
    and [Output(i)] that [update] and [initialize] perform has its index
    below [InputSize()], respectively [OutputSize()]; on an invocation with
    the context and no tensor, [initialize] starts with [Input(1)], which is
    out of bounds. *)
Theorem accesses_in_bounds (c : ptr) (ts outs : list Tensor.t) ro :
  ts ≠ [] → length outs = length ts →
  let inv := invocation c ts outs ro in
  (∀ p, (update inv p).1.1 = Ok tt ∧
        ∀ e, e ∈ (update inv p).2 → in_bounds inv e = true) ∧
  (∀ s e, e ∈ (initialize inv s).2 → in_bounds inv e = true) ∧
  (∀ outs' s,
     let bare := invocation c [] outs' ro in
     initialize bare s = (Throw (OutOfRange "Input"), s, [EvInput 1]) ∧
     in_bounds bare (EvInput 1) = false).
Proof.
  intros Hts Hlen inv.
  assert (Hn : 0 < length ts) by (destruct ts; [done|cbn; lia]).
  split; [|split].
  - intros p. pose proof (update_in_bounds c ts outs ro Hts Hlen p) as Hst.
    destruct (lookup_lt_is_Some_2 outs 0) as [o Ho]; [lia|].
    destruct (update_run c ts outs ro p o) as (p' & Hrun & _); [lia|done|].
    fold inv in Hrun, Hst. rewrite Hrun in *. split; [done|].
    destruct Hst as (_ & Hev & _). rewrite Forall_forall in Hev. exact Hev.
  - intros s.
    assert (Hst : steady (λ _ : AllreduceOp, tt) (λ e, in_bounds inv e = true) (λ _, True)
                    (initialize inv)).
    { apply initialize_with_steady; try done.
      - apply Nat.ltb_lt. subst inv. rewrite InputSize_invocation. lia.
      - intros j Hj. apply Nat.ltb_lt. lia.
      - by apply update_in_bounds. }
    specialize (Hst s). destruct (initialize inv s) as [[r s'] ev].
    destruct Hst as (_ & Hev & _). rewrite Forall_forall in Hev. exact Hev.
  - intros outs' s bare. split; reflexivity.
Qed.

Lemma accesses_in_bounds_witness :
  let inv := first_step in
  (∀ p, (update inv p).1.1 = Ok tt ∧
        ∀ e, e ∈ (update inv p).2 → in_bounds inv e = true) ∧
  (∀ s e, e ∈ (initialize inv s).2 → in_bounds inv e = true) ∧
  (∀ outs' s,
     let bare := invocation 64 [] outs' None in
     initialize bare s = (Throw (OutOfRange "Input"), s, [EvInput 1]) ∧
     in_bounds bare (EvInput 1) = false).
Proof.
  apply (accesses_in_bounds 64%Z [tensor_a; tensor_b] [tensor_a; tensor_b] None).
  - discriminate.
  - reflexivity.
Defined.

(** ** C2 *)

(** The constructor does not look at an [algorithm_mode] option. *)
Lemma AllreduceOp_new_ignores_mode (d : OperatorDef) (v : Argument) (ws : gmap string Blob) :
  AllreduceOp_new {| arg := <["algorithm_mode" := v]> (arg d) |} ws = AllreduceOp_new d ws.
Proof.
  unfold AllreduceOp_new, GetSingleArgument_string, GetSingleArgument_bool. cbn [arg].
  by rewrite !lookup_insert_ne.
Qed.

(** C2, as the spec has it, fails: with [algorithm_mode] set to ring-full the
    operator still constructs the halving-doubling algorithm. *)
Lemma configured_mode_is_not_read :
  ¬ (∀ d ws op inv s' ev,
       AllreduceOp_new d ws = Ok op →
       initialize inv op = (Ok tt, s', ev) →
       alg_mode <$> algorithm_ s' = Some (spec_algorithm_mode d)).
Proof.
  intros H.
  specialize (H ring_full_def ∅ plain_op first_step
                (initialize first_step plain_op).1.2 (initialize first_step plain_op).2
                ring_full_op_new eq_refl).
  vm_compute in H. discriminate.
Qed.

(** C2, amended: whatever the configuration the operator was constructed
    from, the mode of the algorithm that [initialize] constructs is
    HALVING_DOUBLING, and no algorithm of another mode is constructed; no
    option selects the mode. *)
Theorem mode_is_halving_doubling (d : OperatorDef) (ws : gmap string Blob)
    (op : AllreduceOp) (inv : Invocation) s' ev :
  AllreduceOp_new d ws = Ok op →
  initialize inv op = (Ok tt, s', ev) →
  alg_mode <$> algorithm_ s' = Some HALVING_DOUBLING ∧
  ∀ m, EvConstruct m ∈ ev → m = HALVING_DOUBLING.
Proof.
  intros _ Hrun. split.
  - destruct (initialize_with_returns inv HALVING_DOUBLING op tt s' ev Hrun)
      as (_ & Halg & _). by rewrite Halg.
  - intros m Hin. apply (initialize_with_constructs inv HALVING_DOUBLING op).
    unfold initialize in Hrun. by rewrite Hrun.
Qed.

Lemma mode_is_halving_doubling_witness :
  spec_algorithm_mode ring_full_def = RING_FULL ∧
  alg_mode <$> algorithm_ (initialize first_step plain_op).1.2 = Some HALVING_DOUBLING ∧
  ∀ m, EvConstruct m ∈ (initialize first_step plain_op).2 → m = HALVING_DOUBLING.
Proof.
  split; [vm_compute; reflexivity|].
  apply (mode_is_halving_doubling ring_full_def ∅ plain_op first_step).
  - vm_compute. reflexivity.
  - vm_compute. reflexivity.
Defined.

(** ** The once-flag, one invocation after the other *)

(** Once the flag is set, no invocation constructs an algorithm again. *)
Lemma initialized_run_constructs_nothing sf (inv : Invocation) (s : AllreduceOp) m :
  once_ s = true → EvConstruct m ∉ (RunOnDevice sf inv s).2.
Proof.
  intros Honce. rewrite RunOnDevice_ready by done.
  pose proof (update_accesses inv (current_ s) (EvConstruct m)) as Hacc.
  destruct (update inv (current_ s)) as [[[[]|e] p'] ev]; cbn [snd] in *;
    [|by intros Hin; specialize (Hacc Hin)].
  assert (Hev : EvConstruct m ∉ ev) by (by intros Hin; specialize (Hacc Hin)).
  cbv zeta. destruct (GlooParameters.eqb p' (init_ s)); [|done].
  destruct (algorithm_ s) as [a|]; [|done].
  assert (Hrest : ∀ rest, Forall (λ e, e ≠ EvConstruct m) rest → EvConstruct m ∉ ev ++ rest).
  { intros rest Hrest [Hin|Hin]%elem_of_app; [done|].
    rewrite Forall_forall in Hrest. by apply (Hrest _ Hin). }
  destruct (run_outcome inv) as [[msg|what|what|]|]; cbn [snd];
    try (apply Hrest; by repeat constructor).
  destruct (negb (String.eqb (status_blob_ s) "")); [|apply Hrest; by repeat constructor].
  destruct (ws_ s !! status_blob_ s); apply Hrest; by repeat constructor.
Qed.

(** The flag is set by the invocation whose [initialize] returns, and by no
    other. *)
Lemma once_flag_set_by_initialize sf (inv : Invocation) (s : AllreduceOp) :
  once_ s = false →
  once_ (RunOnDevice sf inv s).1.2 = true ↔ (initialize inv s).1.1 = Ok tt.
Proof.
  intros Honce. rewrite RunOnDevice_first by done.
  pose proof (initialize_with_frame inv HALVING_DOUBLING s) as Hfr.
  unfold initialize in *.
  destruct (initialize_with inv HALVING_DOUBLING s) as [[[[]|e] s1] ev1]; cbn [fst snd].
  - pose proof (RunOnDevice_ready_frame sf inv (set_once_ true s1) eq_refl) as Hk.
    destruct (RunOnDevice sf inv (set_once_ true s1)) as [[r s2] ev2]. cbn [fst snd].
    destruct Hk as (_ & _ & Hk). by rewrite Hk.
  - destruct Hfr as (Ho & _). rewrite Ho, Honce. split; discriminate.
Qed.

(** An [initialize] that throws leaves the flag unset, and the next
    invocation initializes. *)
Example failed_initialize_is_retried :
  let s1 := after (invocation 64 [tensor_a; tensor_b] [tensor_a] None) plain_op in
  once_ s1 = false ∧
  ∃ s2 ev, RunOnDevice status_written first_step s1 = (Ok true, s2, ev) ∧
           EvConstruct HALVING_DOUBLING ∈ ev.
Proof.
  split; [reflexivity|]. eexists _, _. vm_compute. split; [reflexivity|]. set_solver.
Qed.

(** * Further properties of the code *)

(** ** The typed views of a snapshot *)

Lemma foldl_push_back {A B} (f : A → B) (l : list A) (acc : list B) :
  foldl (λ result x, result ++ [f x]) acc l = acc ++ (f <$> l).
Proof.
  revert acc. induction l as [|x l IH]; intros acc; cbn.
  - by rewrite app_nil_r.
  - by rewrite IH, <- app_assoc.
Qed.

Lemma getInputs_inputs (p : GlooParameters.t) :
  GlooParameters.getInputs p = GlooParameters.inputs p.
Proof.
  unfold GlooParameters.getInputs. rewrite foldl_push_back. cbn.
  unfold GlooParameters.reinterpret_cast. by rewrite list_fmap_id.
Qed.

Lemma getOutputs_outputs (p : GlooParameters.t) :
  GlooParameters.getOutputs p = GlooParameters.outputs p.
Proof.
  unfold GlooParameters.getOutputs. rewrite foldl_push_back. cbn.
  unfold GlooParameters.reinterpret_cast. by rewrite list_fmap_id.
Qed.

(** X1: [getInputs<T>()] and [getOutputs<T>()] return as many pointers as
    the snapshot holds, and at every index the address the snapshot holds
    there: the loops of [push_back] keep number and order. *)
Theorem typed_views_keep_addresses (p : GlooParameters.t) :
  length (GlooParameters.getInputs p) = length (GlooParameters.inputs p) ∧
  length (GlooParameters.getOutputs p) = length (GlooParameters.outputs p) ∧
  (∀ i, GlooParameters.getInputs p !! i = GlooParameters.inputs p !! i) ∧
  (∀ i, GlooParameters.getOutputs p !! i = GlooParameters.outputs p !! i).
Proof. by rewrite getInputs_inputs, getOutputs_outputs. Qed.

(** ** update writes every field *)

Lemma update_snapshot c (ts outs : list Tensor.t) ro o (p : GlooParameters.t) :
  length outs = length ts → outs !! 0 = Some o →
  update (invocation c ts outs ro) p = (Ok tt, snapshot c ts outs o, update_events (length ts)).
Proof.
  intros Hlen Ho.
  destruct (update_run c ts outs ro p o) as (p' & Hrun & Hp'); [lia|done|].
  rewrite Hrun. destruct p' as [c' ins' outs' sz' mt']. fields in Hp'.
  destruct Hp' as (-> & -> & Hl & Htake & -> & ->).
  unfold snapshot. do 3 f_equal.
  rewrite <- (take_ge outs' (length ts)) by lia.
  rewrite Htake. by rewrite take_ge by lia.
Qed.

(** X2: on an invocation with as many outputs as tensors (at least one),
    [update] returns, and the snapshot it leaves is the one of the
    invocation whatever the object held before: the context of input 0, the
    addresses of the tensors and of the outputs in order, the count and the
    type of output 0. *)
Theorem update_overwrites_snapshot c (ts outs : list Tensor.t) ro o (p : GlooParameters.t) :
  length outs = length ts → outs !! 0 = Some o →
  update (invocation c ts outs ro) p =
    (Ok tt, snapshot c ts outs o, update_events (length ts)).
Proof. apply update_snapshot. Qed.

Lemma update_overwrites_snapshot_witness :
  update first_step (snapshot 1 [tensor_b] [tensor_b; tensor_a; tensor_a] tensor_b) =
    (Ok tt, snapshot 64 [tensor_a; tensor_b] [tensor_a; tensor_b] tensor_a,
     update_events 2).
Proof.
  exact (update_overwrites_snapshot 64%Z [tensor_a; tensor_b] [tensor_a; tensor_b] None
           tensor_a _ eq_refl eq_refl).
Defined.

(** ** The baseline that initialize leaves *)

Lemma ends_with_bind {S A B} (P : Event → Prop) (last : list Event)
    (m : M S A) (f : A → M S B) :
  steady (λ _, tt) P (λ _, True) m →
  (∀ a, ok_post (λ _ ev, ∃ ev0, ev = ev0 ++ last ∧ Forall P ev0) (f a)) →
  ok_post (λ _ ev, ∃ ev0, ev = ev0 ++ last ∧ Forall P ev0) (m ≫= f).
Proof.
  intros Hm Hf s b s' ev. rewrite bind_run. specialize (Hm s).
  destruct (m s) as [[[a|e] s1] ev1]; [|discriminate].
  destruct Hm as (_ & Hev1 & _).
  destruct (f a s1) as [[r s2] ev2] eqn:Hrun. intros [= -> -> <-].
  destruct (Hf a s1 b s' ev2 Hrun) as (ev0 & -> & Hev0).
  exists (ev1 ++ ev0). split; [by rewrite app_assoc|by apply Forall_app].
Qed.

(** A run of [initialize_with] that returns has accessed inputs and outputs
    and then, as its last event, constructed the algorithm. *)
Lemma initialize_with_trace (inv : Invocation) (mode : Mode) :
  ok_post (λ _ ev, ∃ ev0, ev = ev0 ++ [EvConstruct mode] ∧ Forall accesses_only ev0)
    (initialize_with inv mode).
Proof.
  unfold initialize_with.
  repeat (apply ends_with_bind; [repeat steady_step; try done|intros ?]).
  1: apply steady_zoom; [by apply update_steady | done].
  assert (Hc : ok_post (λ _ ev, ∃ ev0, ev = ev0 ++ [EvConstruct mode] ∧
                                  Forall accesses_only ev0) (construct mode)).
  { intros s r s' ev. cbn. intros [= <- <-]. by exists []. }
  unfold initializeRingFull, initializeRingChunked, initializeHalvingDoubling.
  destruct (mode =? RING_FULL)%N eqn:E1; [by apply N.eqb_eq in E1; subst mode|].
  destruct (mode =? RING_CHUNKED)%N eqn:E2; [by apply N.eqb_eq in E2; subst mode|].
  destruct (mode =? HALVING_DOUBLING)%N eqn:E3; [by apply N.eqb_eq in E3; subst mode|].
  intros ? ? ? ?. cbn. discriminate.
Qed.

Lemma first_violation_None (x1 : Tensor.t) (xs outs : list Tensor.t) :
  first_violation x1 xs outs = None ↔
  same_count (x1 :: xs) outs = true ∧ aliased (x1 :: xs) outs = true ∧
  uniform_size x1 (x1 :: xs) = true ∧ uniform_meta x1 (x1 :: xs) = true.
Proof.
  unfold first_violation.
  destruct (same_count (x1 :: xs) outs), (aliased (x1 :: xs) outs),
    (uniform_size x1 (x1 :: xs)), (uniform_meta x1 (x1 :: xs)); cbn; split;
    try done; intros (? & ? & ? & ?); done.
Qed.

(** [initialize_with] returns on a well-formed invocation only when no
    validation fails, and leaves the snapshot of the invocation in [init_]. *)
Lemma initialize_with_returns_snapshot c x1 xs outs ro (mode : Mode) (s s' : AllreduceOp) ev :
  initialize_with (invocation c (x1 :: xs) outs ro) mode s = (Ok tt, s', ev) →
  first_violation x1 xs outs = None ∧
  ∃ o, outs !! 0 = Some o ∧ init_ s' = snapshot c (x1 :: xs) outs o.
Proof.
  intros Hok.
  destruct (initialize_with_run c x1 xs outs ro mode s) as (s2 & ev2 & Hrun & Hinit).
  rewrite Hrun in Hok. unfold spec_validation in *.
  destruct (first_violation x1 xs outs); [discriminate|].
  injection Hok as _ <- _. split; [done|]. by apply Hinit.
Qed.

(** X3: when [initialize] returns, the baseline [init_] is the snapshot of
    the invocation; its input addresses are its output addresses, so that
    the typed views [getInputs] and [getOutputs] are the same list; every
    tensor has the count and the type of the first; [IsType] answers for the
    type of output 0; and the algorithm is constructed on that baseline. *)
Theorem initialize_leaves_baseline c x1 xs outs ro (s s' : AllreduceOp) ev :
  initialize (invocation c (x1 :: xs) outs ro) s = (Ok tt, s', ev) →
  ∃ o, outs !! 0 = Some o ∧
       init_ s' = snapshot c (x1 :: xs) outs o ∧
       GlooParameters.getInputs (init_ s') = GlooParameters.getOutputs (init_ s') ∧
       (∀ x, x ∈ x1 :: xs → Tensor.size x = Tensor.size x1 ∧
                            TypeMeta.eqb (Tensor.meta x) (Tensor.meta x1) = true) ∧
       (∀ T, GlooParameters.IsType T (init_ s') = TypeMeta.Match T (Tensor.meta o)) ∧
       algorithm_ s' =
         Some {| alg_mode := HALVING_DOUBLING; alg_params := snapshot c (x1 :: xs) outs o |}.
Proof.
  intros Hok. unfold initialize in Hok.
  destruct (initialize_with_returns_snapshot _ _ _ _ _ _ _ _ _ Hok) as (Hv & o & Ho & Hinit).
  destruct (initialize_with_returns _ _ _ _ _ _ Hok) as (_ & Halg & _).
  apply first_violation_None in Hv as (Hcount & Halias & Hsize & Hmeta).
  apply Nat.eqb_eq in Hcount. apply aliased_true in Halias; [|done].
  exists o. split; [done|]. split; [done|]. split; [|split; [|split]].
  - rewrite getInputs_inputs, getOutputs_outputs, Hinit. exact Halias.
  - intros x Hx. unfold uniform_size, uniform_meta in *.
    rewrite forallb_forall in Hsize, Hmeta. apply list_elem_of_In in Hx.
    split; [by apply N.eqb_eq, Hsize|by apply Hmeta].
  - intros T. by rewrite Hinit.
  - by rewrite Halg, Hinit.
Qed.

Lemma initialize_leaves_baseline_witness :
  ∃ o, [tensor_a; tensor_b] !! 0 = Some o ∧
       init_ (initialize first_step plain_op).1.2 =
         snapshot 64 [tensor_a; tensor_b] [tensor_a; tensor_b] o ∧
       GlooParameters.getInputs (init_ (initialize first_step plain_op).1.2) =
         GlooParameters.getOutputs (init_ (initialize first_step plain_op).1.2) ∧
       (∀ x, x ∈ [tensor_a; tensor_b] →
             Tensor.size x = Tensor.size tensor_a ∧
             TypeMeta.eqb (Tensor.meta x) (Tensor.meta tensor_a) = true) ∧
       (∀ T, GlooParameters.IsType T (init_ (initialize first_step plain_op).1.2) =
             TypeMeta.Match T (Tensor.meta o)) ∧
       algorithm_ (initialize first_step plain_op).1.2 =
         Some {| alg_mode := HALVING_DOUBLING;
                 alg_params := snapshot 64 [tensor_a; tensor_b] [tensor_a; tensor_b] o |}.
Proof.
  apply (initialize_leaves_baseline 64%Z tensor_a [tensor_b] [tensor_a; tensor_b] None
           plain_op _ (initialize first_step plain_op).2).
  vm_compute. reflexivity.
Defined.

(** ** Counting the events of a trace *)

Lemma count_events_app f (a b : list Event) :
  count_events f (a ++ b) = count_events f a + count_events f b.
Proof. unfold count_events. by rewrite List.filter_app, length_app. Qed.

Lemma count_events_none f (ev : list Event) :
  Forall (λ e, f e = false) ev → count_events f ev = 0.
Proof.
  unfold count_events. induction 1 as [|e ev He _ IH]; [done|].
  cbn. by rewrite He.
Qed.

Lemma count_events_accesses f (ev : list Event) :
  (∀ e, is_access e = true → f e = false) →
  Forall accesses_only ev → count_events f ev = 0.
Proof.
  intros Hf Hev. apply count_events_none.
  eapply Forall_impl; [exact Hev|]. intros e He. by apply Hf.
Qed.

Lemma update_events_accesses n : Forall accesses_only (update_events n).
Proof.
  unfold update_events. apply Forall_cons. split; [done|].
  apply Forall_app. split; [|by repeat constructor].
  apply Forall_flat_map, Forall_forall. intros i _. by repeat constructor.
Qed.

Lemma construct_not_access e : is_access e = true → is_construct e = false.
Proof. by destruct e. Qed.

Lemma run_not_access e : is_access e = true → is_run e = false.
Proof. by destruct e. Qed.

Lemma log_not_access e : is_access e = true → is_log e = false.
Proof. by destruct e. Qed.

(** ** The invocation that initializes *)

Lemma snapshot_eqb_refl c ts outs o :
  GlooParameters.eqb (snapshot c ts outs o) (snapshot c ts outs o) = true.
Proof. by apply GlooParameters_eqb_true. Qed.

(** An initialized operator whose baseline is the snapshot of the invocation
    passes the drift check and calls [run()]. *)
Lemma RunOnDevice_on_baseline sf c (ts outs : list Tensor.t) o a (s : AllreduceOp) :
  once_ s = true → algorithm_ s = Some a →
  init_ s = snapshot c ts outs o →
  length outs = length ts → outs !! 0 = Some o →
  RunOnDevice sf (invocation c ts outs None) s =
    (Ok true, set_current_ (snapshot c ts outs o) s, update_events (length ts) ++ [EvRun]).
Proof.
  intros Honce Halg Hinit Hlen Ho. rewrite RunOnDevice_ready by done.
  rewrite (update_snapshot c ts outs None o) by done. cbv zeta.
  by rewrite Hinit, snapshot_eqb_refl, Halg.
Qed.

(** The invocation that finds the flag unset and passes the validations. *)
Lemma RunOnDevice_initializes sf c x1 xs outs (s : AllreduceOp) :
  once_ s = false → first_violation x1 xs outs = None →
  ∃ o ev0,
    outs !! 0 = Some o ∧ Forall accesses_only ev0 ∧
    RunOnDevice sf (invocation c (x1 :: xs) outs None) s =
      (Ok true,
       {| once_ := true;
          algorithm_ := Some {| alg_mode := HALVING_DOUBLING;
                                alg_params := snapshot c (x1 :: xs) outs o |};
          init_ := snapshot c (x1 :: xs) outs o;
          current_ := snapshot c (x1 :: xs) outs o;
          ws_ := ws_ s; status_blob_ := status_blob_ s; gpu_direct_ := gpu_direct_ s |},
       ev0 ++ [EvConstruct HALVING_DOUBLING] ++ update_events (length (x1 :: xs)) ++ [EvRun]).
Proof.
  intros Honce Hvalid. rewrite RunOnDevice_first by done. unfold initialize.
  destruct (initialize_with_run c x1 xs outs None HALVING_DOUBLING s)
    as (s1 & ev1 & Hrun & _).
  unfold spec_validation in Hrun. rewrite Hvalid in Hrun.
  change (initialize_with (invocation c (x1 :: xs) outs None) HALVING_DOUBLING s =
          (Ok tt, s1, ev1)) in Hrun.
  destruct (initialize_with_returns_snapshot _ _ _ _ _ _ _ _ _ Hrun) as (_ & o & Ho & Hinit).
  destruct (initialize_with_returns _ _ _ _ _ _ Hrun) as (_ & Halg & _).
  destruct (initialize_with_trace _ _ _ _ _ _ Hrun) as (ev0 & -> & Hev0).
  pose proof (initialize_with_frame (invocation c (x1 :: xs) outs None) HALVING_DOUBLING s)
    as Hfr. rewrite Hrun in Hfr. destruct Hfr as (Ho1 & Hcur & Hws & Hname & Hgpu).
  apply first_violation_None in Hvalid as (Hcount & _). apply Nat.eqb_eq in Hcount.
  rewrite Hrun.
  erewrite (RunOnDevice_on_baseline sf c (x1 :: xs) outs o _ (set_once_ true s1));
    [|done|exact Halg|done|done|done].
  exists o, ev0. split; [done|]. split; [done|].
  rewrite <- app_assoc. f_equal. f_equal.
  destruct s1. cbn in *. by subst.
Qed.

(** X4: from any state with the once-flag unset, an invocation that passes
    the four validations and whose [run()] returns makes [RunOnDevice]
    return true: it sets the flag, leaves the snapshot of the invocation in
    both [init_] and [current_], constructs the halving-doubling algorithm
    once and calls [run()] once, after all accesses; the workspace and the
    configuration are untouched.  What [init_] and [current_] held before,
    for instance from an initialization that threw, plays no part. *)
Theorem first_invocation_initializes_and_runs sf c x1 xs outs (s : AllreduceOp) :
  once_ s = false → first_violation x1 xs outs = None →
  ∃ o ev0,
    outs !! 0 = Some o ∧ Forall accesses_only ev0 ∧
    RunOnDevice sf (invocation c (x1 :: xs) outs None) s =
      (Ok true,
       {| once_ := true;
          algorithm_ := Some {| alg_mode := HALVING_DOUBLING;
                                alg_params := snapshot c (x1 :: xs) outs o |};
          init_ := snapshot c (x1 :: xs) outs o;
          current_ := snapshot c (x1 :: xs) outs o;
          ws_ := ws_ s; status_blob_ := status_blob_ s; gpu_direct_ := gpu_direct_ s |},
       ev0 ++ [EvConstruct HALVING_DOUBLING] ++ update_events (length (x1 :: xs)) ++ [EvRun]).
Proof. apply RunOnDevice_initializes. Qed.

Lemma first_invocation_initializes_and_runs_witness :
  ∃ o ev0,
    [tensor_a; tensor_b] !! 0 = Some o ∧ Forall accesses_only ev0 ∧
    RunOnDevice status_written first_step status_op =
      (Ok true,
       {| once_ := true;
          algorithm_ := Some {| alg_mode := HALVING_DOUBLING;
                                alg_params := snapshot 64 [tensor_a; tensor_b]
                                                [tensor_a; tensor_b] o |};
          init_ := snapshot 64 [tensor_a; tensor_b] [tensor_a; tensor_b] o;
          current_ := snapshot 64 [tensor_a; tensor_b] [tensor_a; tensor_b] o;
          ws_ := ws_ status_op; status_blob_ := status_blob_ status_op;
          gpu_direct_ := gpu_direct_ status_op |},
       ev0 ++ [EvConstruct HALVING_DOUBLING] ++ update_events 2 ++ [EvRun]).
Proof.
  apply (first_invocation_initializes_and_runs status_written 64%Z tensor_a [tensor_b]
           [tensor_a; tensor_b] status_op).
  - reflexivity.
  - reflexivity.
Defined.

(** ** The same step, again and again *)

Lemma run_steps_on_baseline sf c (ts outs : list Tensor.t) o a :
  length outs = length ts → outs !! 0 = Some o →
  ∀ n (s : AllreduceOp),
    once_ s = true → algorithm_ s = Some a → init_ s = snapshot c ts outs o →
    ∃ s' ev,
      run_steps sf (replicate n (invocation c ts outs None)) s =
        (replicate n (Ok true), s', ev) ∧
      count_events is_construct ev = 0 ∧ count_events is_run ev = n.
Proof.
  intros Hlen Ho. induction n as [|n IH]; intros s Honce Halg Hinit.
  - by exists s, [].
  - cbn [replicate run_steps].
    rewrite (RunOnDevice_on_baseline sf c ts outs o a s) by done.
    destruct (IH (set_current_ (snapshot c ts outs o) s)) as (s' & ev & Hrest & Hc & Hr);
      [done..|].
    rewrite Hrest. eexists _, _. split; [reflexivity|].
    rewrite !count_events_app, Hc, Hr.
    pose proof (update_events_accesses (length ts)) as Hup.
    rewrite (count_events_accesses is_construct _ construct_not_access Hup).
    rewrite (count_events_accesses is_run _ run_not_access Hup).
    cbn. split; lia.
Qed.

(** X5: steps that all supply the same buffers, which pass the validations,
    and whose [run()] returns: from a state with the flag unset, every step
    returns true, the whole trace holds one construction of an algorithm
    and one [run()] per step. *)
Theorem same_step_initializes_once sf c x1 xs outs (s : AllreduceOp) (n : nat) :
  once_ s = false → first_violation x1 xs outs = None →
  match run_steps sf (replicate (Datatypes.S n) (invocation c (x1 :: xs) outs None)) s with
  | (rs, s', ev) =>
      rs = replicate (Datatypes.S n) (Ok true) ∧
      count_events is_construct ev = 1 ∧
      count_events is_run ev = Datatypes.S n
  end.
Proof.
  intros Honce Hvalid. cbn [replicate run_steps].
  destruct (RunOnDevice_initializes sf c x1 xs outs s Honce Hvalid)
    as (o & ev0 & Ho & Hev0 & Hrun).
  rewrite Hrun. clear Hrun.
  apply first_violation_None in Hvalid as (Hcount & _). apply Nat.eqb_eq in Hcount.
  match goal with |- context [run_steps sf _ ?t] =>
    destruct (run_steps_on_baseline sf c (x1 :: xs) outs o _ (eq_sym Hcount) Ho n t
                eq_refl eq_refl eq_refl) as (s' & ev & Hrest & Hc & Hr)
  end.
  rewrite Hrest. split; [done|].
  rewrite !count_events_app, Hc, Hr.
  pose proof (update_events_accesses (length (x1 :: xs))) as Hup.
  rewrite (count_events_accesses is_construct ev0 construct_not_access Hev0).
  rewrite (count_events_accesses is_run ev0 run_not_access Hev0).
  rewrite (count_events_accesses is_construct _ construct_not_access Hup).
  rewrite (count_events_accesses is_run _ run_not_access Hup).
  cbn. split; lia.
Qed.

Lemma same_step_initializes_once_witness :
  match run_steps status_written (replicate 3 first_step) plain_op with
  | (rs, s', ev) =>
      rs = replicate 3 (Ok true) ∧
      count_events is_construct ev = 1 ∧
      count_events is_run ev = 3
  end.
Proof.
  exact (same_step_initializes_once status_written 64%Z tensor_a [tensor_b]
           [tensor_a; tensor_b] plain_op 2 eq_refl eq_refl).
Defined.

(** ** What the drift check detects *)

(** X6: an initialized operator, invoked with as many outputs as tensors:
    when the context, the tensor addresses, the output addresses and the
    count of output 0 are those of the baseline, [run()] is called; when
    one of them is not, [RunOnDevice] throws "Inputs/outputs have changed"
    after the accesses of [update] and nothing else, [current_] holding the
    new snapshot. *)
Theorem drift_check_detects sf c (ts outs : list Tensor.t) ro o (s : AllreduceOp) :
  once_ s = true → is_Some (algorithm_ s) →
  length outs = length ts → outs !! 0 = Some o →
  let same :=
    c = GlooParameters.context (init_ s) ∧
    Tensor.raw_data <$> ts = GlooParameters.inputs (init_ s) ∧
    Tensor.raw_data <$> outs = GlooParameters.outputs (init_ s) ∧
    Tensor.size o = GlooParameters.size (init_ s) in
  (same → EvRun ∈ (RunOnDevice sf (invocation c ts outs ro) s).2) ∧
  (¬ same →
   RunOnDevice sf (invocation c ts outs ro) s =
     (Throw (EnforceNotMet "Inputs/outputs have changed"),
      set_current_ (snapshot c ts outs o) s, update_events (length ts))).
Proof.
  intros Honce [a Halg] Hlen Ho same. rewrite RunOnDevice_ready by done.
  rewrite (update_snapshot c ts outs ro o) by done. cbv zeta. rewrite Halg.
  pose proof (GlooParameters_eqb_true (snapshot c ts outs o) (init_ s)) as Heq.
  change (GlooParameters.eqb (snapshot c ts outs o) (init_ s) = true ↔ same) in Heq.
  destruct (GlooParameters.eqb (snapshot c ts outs o) (init_ s)).
  - split; [|intros Hn; destruct Hn; by apply Heq]. intros _.
    cbn [run_outcome invocation].
    assert (Hin : ∀ rest, EvRun ∈ update_events (length ts) ++ EvRun :: rest).
    { intros rest. apply elem_of_app. right. apply list_elem_of_here. }
    destruct ro as [[msg|what|what|]|]; cbn [snd]; try apply (Hin []).
    destruct (negb (String.eqb (status_blob_ s) "")); [|apply Hin].
    destruct (ws_ s !! status_blob_ s); apply Hin.
  - split; [|done]. intros Hsame. apply Heq in Hsame. discriminate.
Qed.

Lemma drift_check_detects_witness :
  let s := after first_step plain_op in
  let b := Tensor.Build 16384 4 float32 in
  (EvRun ∈ (RunOnDevice status_written first_step s).2) ∧
  RunOnDevice status_written (invocation 64 [tensor_a; b] [tensor_a; b] None) s =
    (Throw (EnforceNotMet "Inputs/outputs have changed"),
     set_current_ (snapshot 64 [tensor_a; b] [tensor_a; b] tensor_a) s, update_events 2).
Proof.
  intros s b. split.
  - apply (drift_check_detects status_written 64%Z [tensor_a; tensor_b] [tensor_a; tensor_b]
             None tensor_a s); [reflexivity|by eexists|reflexivity|reflexivity|].
    vm_compute. repeat split; reflexivity.
  - apply (drift_check_detects status_written 64%Z [tensor_a; b] [tensor_a; b]
             None tensor_a s); [reflexivity|by eexists|reflexivity|reflexivity|].
    vm_compute. intros (_ & [=] & _).
Defined.

(** ** What RunOnDevice writes besides the snapshots *)

Lemma silent_no_log (ev : list Event) : Forall silent ev → count_events is_log ev = 0.
Proof.
  intros Hev. apply count_events_none. eapply Forall_impl; [exact Hev|]. by intros e [_ ?].
Qed.

Lemma RunOnDevice_ready_writes sf (inv : Invocation) (s : AllreduceOp) :
  once_ s = true → writes_status_only sf inv s (RunOnDevice sf inv s).
Proof.
  intros Honce. rewrite RunOnDevice_ready by done.
  assert (Hsame : ∀ r p ev, writes_status_only sf inv s (r, set_current_ p s, ev)).
  { intros r p ev. repeat split; try done; try (intros Hne; by destruct Hne). }
  destruct (update inv (current_ s)) as [[[[]|e] p'] ev]; [|apply Hsame].
  cbv zeta. destruct (GlooParameters.eqb p' (init_ s)); [|apply Hsame].
  destruct (algorithm_ s) as [a|]; [|apply Hsame].
  destruct (run_outcome inv) as [[msg|what|what|]|] eqn:Hro; try apply Hsame.
  destruct (negb (String.eqb (status_blob_ s) "")) eqn:Hname; [|apply Hsame].
  apply negb_true_iff, String.eqb_neq in Hname.
  destruct (ws_ s !! status_blob_ s) as [blob|] eqn:Hblob; [|apply Hsame].
  repeat split; try done.
  - intros name Hne. fields. by rewrite lookup_insert_ne.
  - exists blob, what. done.
Qed.

(** X7: whatever the state and the invocation, [RunOnDevice] leaves
    [status_blob_] and [gpu_direct_] as they are and every blob of the
    workspace under another name than [status_blob_] as it is; the
    workspace changes only when a status blob is named, [run()] threw an
    IoException and false is returned, and then by [signalFailure] applied
    to that blob. *)
Theorem RunOnDevice_writes_status_blob_only sf (inv : Invocation) (s : AllreduceOp) :
  writes_status_only sf inv s (RunOnDevice sf inv s).
Proof.
  destruct (once_ s) eqn:Honce; [by apply RunOnDevice_ready_writes|].
  rewrite RunOnDevice_first by done.
  pose proof (initialize_with_frame inv HALVING_DOUBLING s) as Hfr.
  unfold initialize. destruct (initialize_with inv HALVING_DOUBLING s) as [[[[]|e] s1] ev1].
  - destruct Hfr as (_ & _ & Hws & Hname & Hgpu).
    pose proof (RunOnDevice_ready_writes sf inv (set_once_ true s1) eq_refl) as Hready.
    destruct (RunOnDevice sf inv (set_once_ true s1)) as [[r s2] ev2].
    unfold writes_status_only in *. fields in Hready.
    by rewrite Hws, Hname, Hgpu in Hready.
  - destruct Hfr as (_ & _ & Hws & Hname & Hgpu). unfold writes_status_only.
    rewrite Hws, Hname, Hgpu. repeat split; try done; try (intros Hne; by destruct Hne).
Qed.

(** ** Faults of run() that are not caught *)

Lemma RunOnDevice_ready_passes sf (inv : Invocation) (s : AllreduceOp) f :
  once_ s = true → run_outcome inv = Some f → (∀ what, f ≠ IoException what) →
  passes_through f s (RunOnDevice sf inv s).
Proof.
  intros Honce Hro Hf. rewrite RunOnDevice_ready by done.
  pose proof (update_silent inv (current_ s)) as Hsil.
  destruct (update inv (current_ s)) as [[[[]|e] p'] ev]; cbn [snd] in Hsil.
  2: { split; [done|]. split; [by apply silent_no_log|].
       intros Hin. by apply silent_no_run in Hin. }
  assert (Hquiet : ∀ r, passes_through f s (r, set_current_ p' s, ev)).
  { intros r. split; [done|]. split; [by apply silent_no_log|].
    intros Hin. by apply silent_no_run in Hin. }
  cbv zeta. destruct (GlooParameters.eqb p' (init_ s)); [|apply Hquiet].
  destruct (algorithm_ s) as [a|]; [|apply Hquiet].
  rewrite Hro. destruct f as [msg|what|what|]; try (by destruct (Hf what));
    (split; [done|]; split; [by rewrite count_events_app, silent_no_log|done]).
Qed.

(** X8: when [run()] throws a fault that is not an IoException, the catch
    clause does not apply: whether or not a status blob is named,
    [RunOnDevice] throws that fault on once [run()] was reached, logs
    nothing and leaves the workspace as it is. *)
Theorem other_faults_pass_through sf (inv : Invocation) (s : AllreduceOp) f :
  run_outcome inv = Some f → (∀ what, f ≠ IoException what) →
  passes_through f s (RunOnDevice sf inv s).
Proof.
  intros Hro Hf. destruct (once_ s) eqn:Honce; [by apply RunOnDevice_ready_passes|].
  rewrite RunOnDevice_first by done.
  pose proof (initialize_with_frame inv HALVING_DOUBLING s) as Hfr.
  pose proof (initialize_silent inv s) as Hsil.
  unfold initialize in *.
  destruct (initialize_with inv HALVING_DOUBLING s) as [[[[]|e] s1] ev1]; cbn [snd] in Hsil.
  - destruct Hfr as (_ & _ & Hws & _).
    pose proof (RunOnDevice_ready_passes sf inv (set_once_ true s1) f eq_refl Hro Hf)
      as Hready.
    destruct (RunOnDevice sf inv (set_once_ true s1)) as [[r s2] ev2].
    destruct Hready as (Hws2 & Hlog & Hrun). fields in Hws2.
    split; [congruence|]. split; [by rewrite count_events_app, silent_no_log|].
    intros [Hin|Hin]%elem_of_app; [by apply silent_no_run in Hin|by apply Hrun].
  - destruct Hfr as (_ & _ & Hws & _).
    split; [done|]. split; [by apply silent_no_log|].
    intros Hin. by apply silent_no_run in Hin.
Qed.

Lemma other_faults_pass_through_witness :
  let inv := invocation 64 [tensor_a; tensor_b] [tensor_a; tensor_b]
               (Some (OutOfRange "device buffer")) in
  passes_through (OutOfRange "device buffer") status_op
    (RunOnDevice status_written inv status_op).
Proof.
  intros inv.
  apply (other_faults_pass_through status_written inv status_op (OutOfRange "device buffer")).
  - reflexivity.
  - discriminate.
Defined.

(** ** Null pointers *)

Lemma initialize_with_not_null (inv : Invocation) (mode : Mode) :
  steady (λ _ : AllreduceOp, tt) (λ _, True) not_null (initialize_with inv mode).
Proof.
  unfold initialize_with.
  repeat (apply steady_bind; [repeat steady_step; try done|intros ?]).
  1: apply steady_zoom; [by apply update_steady | done].
  assert (Hc : steady (λ _ : AllreduceOp, tt) (λ _, True) not_null (construct mode)).
  { unfold construct. apply steady_bind; [by apply steady_tell|].
    intros _. by apply steady_modify. }
  unfold initializeRingFull, initializeRingChunked, initializeHalvingDoubling.
  destruct (mode =? RING_FULL)%N eqn:E1; [by apply N.eqb_eq in E1; subst mode|].
  destruct (mode =? RING_CHUNKED)%N eqn:E2; [by apply N.eqb_eq in E2; subst mode|].
  destruct (mode =? HALVING_DOUBLING)%N eqn:E3; [by apply N.eqb_eq in E3; subst mode|].
  by apply steady_enforce.
Qed.

Lemma RunOnDevice_ready_not_null sf (inv : Invocation) (s : AllreduceOp) :
  once_ s = true → consistent s → run_outcome inv ≠ Some NullDereference →
  (RunOnDevice sf inv s).1.1 ≠ Throw NullDereference.
Proof.
  intros Honce [Halg Hws] Hro. rewrite RunOnDevice_ready by done.
  pose proof (update_steady inv (λ _, True) not_null
                ltac:(done) ltac:(done) ltac:(done) ltac:(done) ltac:(done) (current_ s))
    as Hup.
  destruct (update inv (current_ s)) as [[[[]|e] p'] ev].
  2: { destruct Hup as (_ & _ & He). cbn. intros [= ->]. by apply (He NullDereference). }
  cbv zeta. destruct (GlooParameters.eqb p' (init_ s)); [|done].
  destruct (Halg Honce) as [a ->].
  destruct (run_outcome inv) as [[msg|what|what|]|]; try done.
  destruct (negb (String.eqb (status_blob_ s) "")) eqn:Hname; [|done].
  apply negb_true_iff, String.eqb_neq in Hname.
  by destruct (Hws Hname) as [blob ->].
Qed.

Lemma RunOnDevice_not_null sf (inv : Invocation) (s : AllreduceOp) :
  consistent s → run_outcome inv ≠ Some NullDereference →
  (RunOnDevice sf inv s).1.1 ≠ Throw NullDereference.
Proof.
  intros Hs Hro. destruct (once_ s) eqn:Honce; [by apply RunOnDevice_ready_not_null|].
  pose proof (RunOnDevice_consistent sf inv s Hs) as Hnext.
  rewrite RunOnDevice_first in * by done. unfold initialize in *.
  pose proof (initialize_with_not_null inv HALVING_DOUBLING s) as Hinit.
  pose proof (initialize_with_frame inv HALVING_DOUBLING s) as Hfr.
  pose proof (initialize_with_returns inv HALVING_DOUBLING s) as Hret.
  destruct (initialize_with inv HALVING_DOUBLING s) as [[[[]|e] s1] ev1].
  - destruct Hfr as (_ & _ & Hw & Hn & _).
    destruct (Hret tt s1 ev1 eq_refl) as (_ & Halg & _).
    assert (Hs1 : consistent (set_once_ true s1)).
    { destruct Hs as [_ Hws]. split; fields; [by rewrite Halg|]. by rewrite Hw, Hn. }
    pose proof (RunOnDevice_ready_not_null sf inv (set_once_ true s1) eq_refl Hs1 Hro) as Hr.
    by destruct (RunOnDevice sf inv (set_once_ true s1)) as [[r s2] ev2].
  - destruct Hinit as (_ & _ & He). cbn. intros [= ->]. by apply (He NullDereference).
Qed.

(** X9: from an operator that the constructor built, through any steps
    whose [run()] does not itself fail on a null pointer, no step ends in a
    null dereference: when [run()] is reached [algorithm_] is set, and when
    a failure is signalled the status blob that the constructor created is
    still in the workspace. *)
Theorem no_null_dereference sf (d : OperatorDef) (ws : gmap string Blob) (op : AllreduceOp)
    (invs : list Invocation) :
  AllreduceOp_new d ws = Ok op →
  Forall (λ inv, run_outcome inv ≠ Some NullDereference) invs →
  Throw NullDereference ∉ (run_steps sf invs op).1.1.
Proof.
  intros Hnew Hinvs.
  apply AllreduceOp_new_consistent in Hnew as [_ Hs]. clear d ws.
  revert op Hs. induction Hinvs as [|inv invs Hro _ IH]; intros s Hs.
  - cbn. apply not_elem_of_nil.
  - cbn [run_steps].
    pose proof (RunOnDevice_not_null sf inv s Hs Hro) as Hr.
    pose proof (RunOnDevice_consistent sf inv s Hs) as Hnext.
    destruct (RunOnDevice sf inv s) as [[r s1] ev1]. cbn [fst snd] in *.
    specialize (IH s1 Hnext).
    destruct (run_steps sf invs s1) as [[rs s2] ev2]. cbn [fst snd] in *.
    intros [Heq|Hin]%elem_of_cons; [by apply Hr|by apply IH].
Qed.

Lemma no_null_dereference_witness :
  Throw NullDereference ∉
    (run_steps status_written [failing_step; first_step; moved_step; failing_step]
       status_op).1.1.
Proof.
  apply (no_null_dereference status_written status_def ∅ status_op).
  - vm_compute. reflexivity.
  - repeat constructor; discriminate.
Defined.

(** ** An initialization that throws *)

(** X10: an invocation that finds the flag unset and fails a validation
    throws the fault of that validation, constructs no algorithm, calls no
    [run()], and leaves the flag unset and [algorithm_] as it was; a later
    invocation that passes the validations then initializes the operator
    and returns true. *)
Theorem failed_initialize_then_valid sf c x1 xs outs ro v c' y1 ys outs' (s : AllreduceOp) :
  once_ s = false →
  first_violation x1 xs outs = Some v →
  first_violation y1 ys outs' = None →
  match RunOnDevice sf (invocation c (x1 :: xs) outs ro) s with
  | (r, s1, ev1) =>
      r = Throw (fault_of (length outs <? length (x1 :: xs)) v) ∧
      once_ s1 = false ∧ algorithm_ s1 = algorithm_ s ∧
      count_events is_construct ev1 = 0 ∧ count_events is_run ev1 = 0 ∧
      ∃ s2 ev2,
        RunOnDevice sf (invocation c' (y1 :: ys) outs' None) s1 = (Ok true, s2, ev2) ∧
        once_ s2 = true ∧ count_events is_construct ev2 = 1
  end.
Proof.
  intros Honce Hbad Hgood. rewrite RunOnDevice_first by done. unfold initialize.
  destruct (initialize_with_run c x1 xs outs ro HALVING_DOUBLING s)
    as (s1 & ev1 & Hrun & _).
  unfold spec_validation in Hrun. rewrite Hbad in Hrun.
  cbn [fmap option_fmap option_map] in Hrun.
  pose proof (initialize_with_frame (invocation c (x1 :: xs) outs ro) HALVING_DOUBLING s)
    as Hfr.
  destruct (initialize_with_throws _ _ _ _ _ _ Hrun) as (Halg & Hev & _).
  rewrite Hrun in *. destruct Hfr as (Ho & _).
  split; [done|]. split; [congruence|]. split; [done|].
  split; [by apply count_events_accesses; [exact construct_not_access|]|].
  split; [by apply count_events_accesses; [exact run_not_access|]|].
  destruct (RunOnDevice_initializes sf c' y1 ys outs' s1 ltac:(congruence) Hgood)
    as (o & ev0 & _ & Hev0 & Hnext).
  eexists _, _. split; [exact Hnext|]. split; [done|].
  pose proof (update_events_accesses (length (y1 :: ys))) as Hup.
  rewrite !count_events_app.
  rewrite (count_events_accesses is_construct ev0 construct_not_access Hev0).
  rewrite (count_events_accesses is_construct _ construct_not_access Hup). done.
Qed.

Lemma failed_initialize_then_valid_witness :
  match RunOnDevice status_written
          (invocation 64 [tensor_a; tensor_b] [tensor_a] None) plain_op with
  | (r, s1, ev1) =>
      r = Throw (OutOfRange "Output") ∧
      once_ s1 = false ∧ algorithm_ s1 = algorithm_ plain_op ∧
      count_events is_construct ev1 = 0 ∧ count_events is_run ev1 = 0 ∧
      ∃ s2 ev2,
        RunOnDevice status_written first_step s1 = (Ok true, s2, ev2) ∧
        once_ s2 = true ∧ count_events is_construct ev2 = 1
  end.
Proof.
  exact (failed_initialize_then_valid status_written 64%Z tensor_a [tensor_b] [tensor_a]
           None SameCount 64%Z tensor_a [tensor_b] [tensor_a; tensor_b] plain_op
           eq_refl eq_refl eq_refl).
Defined.

(** ** After a fault *)

(** X11: a drift fault changes nothing but [current_]: when the step after
    it supplies the buffers of the baseline again, the drift check passes,
    [run()] is called and true is returned, without another
    initialization. *)
Theorem drift_fault_is_not_sticky sf c (ts outs : list Tensor.t) o a
    c' (ts' outs' : list Tensor.t) o' ro (s : AllreduceOp) :
  once_ s = true → algorithm_ s = Some a → init_ s = snapshot c ts outs o →
  length outs = length ts → outs !! 0 = Some o →
  length outs' = length ts' → outs' !! 0 = Some o' →
  GlooParameters.eqb (snapshot c' ts' outs' o') (snapshot c ts outs o) = false →
  match RunOnDevice sf (invocation c' ts' outs' ro) s with
  | (r, s1, ev1) =>
      r = Throw (EnforceNotMet "Inputs/outputs have changed") ∧
      RunOnDevice sf (invocation c ts outs None) s1 =
        (Ok true, set_current_ (snapshot c ts outs o) s,
         update_events (length ts) ++ [EvRun])
  end.
Proof.
  intros Honce Halg Hinit Hlen Ho Hlen' Ho' Hne. rewrite RunOnDevice_ready by done.
  rewrite (update_snapshot c' ts' outs' ro o') by done. cbv zeta.
  rewrite Hinit, Hne. split; [done|].
  by rewrite (RunOnDevice_on_baseline sf c ts outs o a).
Qed.

Lemma drift_fault_is_not_sticky_witness :
  let b := Tensor.Build 16384 4 float32 in
  let s := after first_step plain_op in
  match RunOnDevice status_written (invocation 64 [tensor_a; b] [tensor_a; b] None) s with
  | (r, s1, ev1) =>
      r = Throw (EnforceNotMet "Inputs/outputs have changed") ∧
      RunOnDevice status_written first_step s1 =
        (Ok true,
         set_current_ (snapshot 64 [tensor_a; tensor_b] [tensor_a; tensor_b] tensor_a) s,
         update_events 2 ++ [EvRun])
  end.
Proof.
  intros b s.
  exact (drift_fault_is_not_sticky status_written 64%Z [tensor_a; tensor_b]
           [tensor_a; tensor_b] tensor_a
           {| alg_mode := HALVING_DOUBLING;
              alg_params := snapshot 64 [tensor_a; tensor_b] [tensor_a; tensor_b] tensor_a |}
           64%Z [tensor_a; b] [tensor_a; b] tensor_a None s
           eq_refl eq_refl eq_refl eq_refl eq_refl eq_refl eq_refl eq_refl).
Defined.

(** X12: after an IoException was signalled into the status blob and false
    returned, the operator is as initialized as before: the algorithm and
    the baseline are kept, and the next step on the same buffers calls
    [run()] on that algorithm again and returns true when it returns;
    nothing is constructed anew. *)
Theorem signalled_failure_keeps_algorithm sf c (ts outs : list Tensor.t) o a what blob
    (s : AllreduceOp) :
  once_ s = true → algorithm_ s = Some a → init_ s = snapshot c ts outs o →
  length outs = length ts → outs !! 0 = Some o →
  status_blob_ s ≠ "" → ws_ s !! status_blob_ s = Some blob →
  match RunOnDevice sf (invocation c ts outs (Some (IoException what))) s with
  | (r, s1, ev1) =>
      r = Ok false ∧
      ws_ s1 = <[status_blob_ s := sf blob what]> (ws_ s) ∧
      algorithm_ s1 = Some a ∧ init_ s1 = init_ s ∧
      RunOnDevice sf (invocation c ts outs None) s1 =
        (Ok true, s1, update_events (length ts) ++ [EvRun])
  end.
Proof.
  intros Honce Halg Hinit Hlen Ho Hname Hblob. rewrite RunOnDevice_ready by done.
  rewrite (update_snapshot c ts outs _ o) by done. cbv zeta.
  rewrite Hinit, snapshot_eqb_refl, Halg. cbn [run_outcome invocation].
  apply String.eqb_neq in Hname. rewrite Hname, Hblob. cbn [negb].
  split; [done|]. split; [done|]. split; [done|]. split; [done|].
  by rewrite (RunOnDevice_on_baseline sf c ts outs o a).
Qed.

Lemma signalled_failure_keeps_algorithm_witness :
  match RunOnDevice status_written failing_step (after first_step status_op) with
  | (r, s1, ev1) =>
      r = Ok false ∧
      ws_ s1 = <["allreduce_status" := status_written BlobEmpty "peer unreachable"]>
                 (ws_ (after first_step status_op)) ∧
      algorithm_ s1 =
        Some {| alg_mode := HALVING_DOUBLING;
                alg_params := snapshot 64 [tensor_a; tensor_b] [tensor_a; tensor_b]
                                tensor_a |} ∧
      init_ s1 = init_ (after first_step status_op) ∧
      RunOnDevice status_written first_step s1 = (Ok true, s1, update_events 2 ++ [EvRun])
  end.
Proof.
  exact (signalled_failure_keeps_algorithm status_written 64%Z [tensor_a; tensor_b]
           [tensor_a; tensor_b] tensor_a _ "peer unreachable" BlobEmpty
           (after first_step status_op)
           eq_refl eq_refl eq_refl eq_refl eq_refl ltac:(discriminate) eq_refl).
Defined.
